(** * hazexpired: expiration facts about a remote TLS certificate chain

    A shallow embedding of [hazexpired.go] (package [hazexpired]) and the
    proofs of its specification.

    The package has one producer, [FetchChain], and three consumers,
    [Expired], [ExpiresWithinDays] and [ExpiresBeforeDate].  The embedding
    keeps the shape of the Go code:

    - [time.Time] is the wall-clock instant in nanoseconds, a [Z]; the
      certificate's [NotAfter] carries no monotonic reading, so [Before] and
      [Sub] always compare wall-clock instants;
    - [time.Duration] is an [int64] count of nanoseconds, with the saturation
      of [Time.Sub] written out;
    - [float64] is IEEE 754 binary64 as specified by the standard library's
      [SpecFloat] (precision 53, [emax] 1024, round to nearest even); the
      conversion [int(...)] truncates toward zero;
    - the network and the clock are an explicit [World] that is threaded
      through the calls: [tls.DialWithDialer] consults [net], [time.Now]
      reads [wallclock] and advances [ticks];
    - a Go result pair [(v, err)] is a Rocq pair whose second component is
      [option string] ([None] is [nil], [Some msg] an error whose [Error()]
      is [msg]). *)

From Stdlib Require Import ZArith List String Bool Lia Zpower.
From Stdlib.Strings Require Import Byte.
From Stdlib Require Import SpecFloat.
From Stdlib Require Import Reals Lra.
Import ListNotations.

Local Open Scope Z_scope.

(** ** Machine integers *)

Definition minInt64 : Z := - 2 ^ 63.
Definition maxInt64 : Z := 2 ^ 63 - 1.

(** Two's complement wrap-around of [int64] arithmetic. *)
Definition wrap64 (z : Z) : Z := (z + 2 ^ 63) mod 2 ^ 64 - 2 ^ 63.

(** ** binary64 *)

Module Float64.

Definition prec : Z := 53.
Definition emax : Z := 1024.

Definition float64 := spec_float.

(** [float64(z)] for an integer [z]: the nearest binary64. *)
Definition of_int (z : Z) : float64 := binary_normalize prec emax z 0 false.

Definition add (x y : float64) : float64 := SFadd prec emax x y.
Definition div (x y : float64) : float64 := SFdiv prec emax x y.

(** The integer part of [m * 2^e]. *)
Definition magnitude (m : positive) (e : Z) : Z :=
  match e with
  | Zneg p => Z.pos m / 2 ^ Z.pos p
  | _ => Z.pos m * 2 ^ e
  end.

(** [int(f)]: the fraction is discarded (truncation toward zero).  Go
    leaves the result of converting a NaN, an infinity or a value outside
    [int64] to the implementation; amd64 yields the smallest [int64]. *)
Definition to_int (f : float64) : Z :=
  match f with
  | S754_zero _ => 0
  | S754_finite s m e =>
      let t := cond_Zopp s (magnitude m e) in
      if (minInt64 <=? t) && (t <=? maxInt64) then t else minInt64
  | _ => minInt64
  end.

(** *** Real values, for the proofs *)

Definition bpow (e : Z) : R := powerRZ 2 e.

Definition F2R (m e : Z) : R := (IZR m * bpow e)%R.

(** [x] lies in the interval from [m * 2^e] to [(m+1) * 2^e], at its left
    end exactly when the location says so. *)
Definition inbetween (m e : Z) (l : location) (x : R) : Prop :=
  match l with
  | loc_Exact => x = F2R m e
  | loc_Inexact _ => (F2R m e < x < F2R (m + 1) e)%R
  end.

(** The non-negative numbers with a mantissa of [prec] bits above the
    smallest exponent (and [2^53 * 2^e], the next power of two).  The
    exponent is not bounded above: overflow is excluded where it matters. *)
Definition representable (g : R) : Prop :=
  exists m e, g = F2R m e /\ 0 <= m <= 2 ^ prec /\ emin prec emax <= e.

(** [v] is one of the two representable neighbours of [x], and [x] itself
    when [x] is representable: no representable number lies strictly
    between [x] and [v]. *)
Definition faithful (x v : R) : Prop :=
  (forall g, representable g -> (g <= x)%R -> (g <= v)%R)
  /\ (forall g, representable g -> (x <= g)%R -> (v <= g)%R).

End Float64.

Import Float64.

(** [inbetween], with the side of the midpoint that the location records. *)
Definition located (m e : Z) (l : location) (x : R) : Prop :=
  match l with
  | loc_Exact => x = F2R m e
  | loc_Inexact c =>
      (F2R m e < x < F2R (m + 1) e)%R
      /\ match c with
         | Lt => (x < F2R (2 * m + 1) (e - 1))%R
         | Eq => x = F2R (2 * m + 1) (e - 1)
         | Gt => (F2R (2 * m + 1) (e - 1) < x)%R
         end
  end.

(** [f] is the positive normal float that rounding to nearest, ties to
    even, makes of [x]: the mantissa [m'] and the location say where [x]
    lies, and [f] is [round_nearest_even] of them. *)
Definition nearest (x : R) (f : float64) : Prop :=
  exists m e m' e' l',
    f = S754_finite false m e
    /\ 2 ^ 52 <= m' < 2 ^ 53
    /\ located m' e' l' x
    /\ F2R (Z.pos m) e = F2R (round_nearest_even m' l') e'.

(** The real number that a float stands for (0 for what is not finite). *)
Definition B2R (f : float64) : R :=
  match f with
  | S754_finite s m e => F2R (cond_Zopp s (Z.pos m)) e
  | _ => 0%R
  end.

(** ** Package [time] *)

Definition Time := Z.
Definition Duration := Z.

Definition Nanosecond : Duration := 1.
Definition Second : Duration := 1000000000.
Definition Hour : Duration := 3600 * Second.

Definition minDuration : Duration := minInt64.
Definition maxDuration : Duration := maxInt64.

(** [t.Before(u)] *)
Definition Before (t u : Time) : bool := t <? u.

(** [t.Sub(u)]: the difference is computed in [int64]; when adding it back
    to [u] does not give [t] the true difference is out of range and the
    result saturates. *)
Definition Sub (t u : Time) : Duration :=
  let d := wrap64 (t - u) in
  if u + d =? t then d
  else if Before t u then minDuration
  else maxDuration.

(** [d.Hours()]:
<<
    hour := d / Hour
    nsec := d % Hour
    return float64(hour) + float64(nsec)/(60*60*1e9)
>>
    Go's integer [/] and [%] truncate toward zero. *)
Definition Hours (d : Duration) : float64 :=
  let hour := Z.quot d Hour in
  let nsec := Z.rem d Hour in
  add (of_int hour) (div (of_int nsec) (of_int (60 * 60 * 1000000000))).

(** [int(d.Hours() / 24)] *)
Definition wholeDays (d : Duration) : Z :=
  to_int (div (Hours d) (of_int 24)).

(** ** Package [hazexpired] *)

(** The fields of [x509.Certificate] that [FetchChain] reads. *)
Record Certificate := {
  NotAfter : Time;
  cert_Signature : list byte;
  cert_SerialNumber : Z
}.

Record CertificateStatus := {
  ExpiredNow : bool;
  ExpiresInDays : Z;
  ExpirationDate : Time;
  Signature : list byte;
  SerialNumber : Z
}.

(** What [tls.DialWithDialer] gives back: a connection whose state holds the
    peer certificates, or an error.  The dialer's 3 second timeout and the
    skipped verification ([InsecureSkipVerify]) are part of how the world
    answers: an address that does not resolve, connect or complete the
    handshake in time is a [DialError]. *)
Inductive DialResult :=
| Connected (PeerCertificates : list Certificate)
| DialError (cause : string).

Record World := {
  net : string -> DialResult;
  wallclock : nat -> Time;
  ticks : nat
}.

(** [time.Now()] *)
Definition Now (w : World) : Time * World :=
  (wallclock w (ticks w),
   {| net := net w; wallclock := wallclock w; ticks := S (ticks w) |}).

(** [int(cert.NotAfter.Sub(now).Hours() / 24)] *)
Definition daysUntil (notAfter now : Time) : Z :=
  wholeDays (Sub notAfter now).

(** The body of the loop of [FetchChain]. *)
Definition certStatus (now : Time) (cert : Certificate) : CertificateStatus :=
  {| ExpirationDate := NotAfter cert;
     ExpiredNow := if Before (NotAfter cert) now then true else false;
     ExpiresInDays := daysUntil (NotAfter cert) now;
     Signature := cert_Signature cert;
     SerialNumber := cert_SerialNumber cert |}.

(** [for _, cert := range certs { ...; chain = append(chain, status) }] *)
Definition appendStatuses (now : Time) (certs : list Certificate)
  : list CertificateStatus :=
  fold_left (fun chain cert => chain ++ [certStatus now cert]) certs [].

Definition FetchChain (w : World) (address : string)
  : (list CertificateStatus * option string) * World :=
  match net w address with
  | DialError err =>
      (([], Some ("Could not establish connection to outbound address "
                    ++ address ++ " - " ++ err)%string), w)
  | Connected certs =>
      let '(now, w') := Now w in
      ((appendStatuses now certs, None), w')
  end.

(** The three loops with an early [return true, nil]. *)
Fixpoint anyExpiredNow (chain : list CertificateStatus) : bool :=
  match chain with
  | [] => false
  | cert :: rest => if ExpiredNow cert then true else anyExpiredNow rest
  end.

Fixpoint anyExpiresWithin (days : Z) (chain : list CertificateStatus) : bool :=
  match chain with
  | [] => false
  | cert :: rest =>
      if ExpiresInDays cert <? days then true else anyExpiresWithin days rest
  end.

Fixpoint anyExpiresBefore (t : Time) (chain : list CertificateStatus) : bool :=
  match chain with
  | [] => false
  | cert :: rest =>
      if Before (ExpirationDate cert) t then true else anyExpiresBefore t rest
  end.

Definition Expired (w : World) (address : string)
  : (bool * option string) * World :=
  let '((chain, err), w') := FetchChain w address in
  match err with
  | Some e => ((true, Some ("Error Fetching Certificate Chain - " ++ e)%string), w')
  | None => ((anyExpiredNow chain, None), w')
  end.

Definition ExpiresWithinDays (w : World) (address : string) (days : Z)
  : (bool * option string) * World :=
  let '((chain, err), w') := FetchChain w address in
  match err with
  | Some e => ((true, Some ("Error Fetching Certificate Chain - " ++ e)%string), w')
  | None => ((anyExpiresWithin days chain, None), w')
  end.

Definition ExpiresBeforeDate (w : World) (address : string) (t : Time)
  : (bool * option string) * World :=
  let '((chain, err), w') := FetchChain w address in
  match err with
  | Some e => ((true, Some ("Error Fetching Certificate Chain - " ++ e)%string), w')
  | None => ((anyExpiresBefore t chain, None), w')
  end.

(** ** Vocabulary of the specification *)

Definition Day : Duration := 24 * Hour.

(** The day count as the specification words it: the floor of the time from
    [now] to [notAfter], in hours, divided by 24. *)
Definition floorDays (notAfter now : Time) : Z := (notAfter - now) / Day.

(** [sub] occurs somewhere inside [s]. *)
Definition Contains (s sub : string) : Prop :=
  exists pre post, s = (pre ++ sub ++ post)%string.

(** The three queries wrap the error of the fetch each with a context of
    its own. *)
Definition QuerySpecificContext
  (w : World) (address : string) (days : Z) (t : Time) : Prop :=
  exists c1 c2 c3 e,
    snd (fst (FetchChain w address)) = Some e
    /\ snd (fst (Expired w address)) = Some (c1 ++ e)%string
    /\ snd (fst (ExpiresWithinDays w address days)) = Some (c2 ++ e)%string
    /\ snd (fst (ExpiresBeforeDate w address t)) = Some (c3 ++ e)%string
    /\ c1 <> c2 /\ c2 <> c3 /\ c1 <> c3.

(** ** Sample worlds *)

Definition sampleNow : Time := 1700000000 * Second.

(** A leaf that expires in 360 hours and an intermediate certificate that
    expired one hour ago. *)
Definition leafCert : Certificate :=
  {| NotAfter := sampleNow + 360 * Hour;
     cert_Signature := [x30; x45; x02; x21];
     cert_SerialNumber := 4919 |}.

Definition staleCert : Certificate :=
  {| NotAfter := sampleNow - Hour;
     cert_Signature := [x30; x46; x02; x21];
     cert_SerialNumber := 20240229 |}.

Definition sampleWorld : World :=
  {| net := fun address =>
              if String.eqb address "example.com:443"
              then Connected [leafCert; staleCert]
              else if String.eqb address "leaf.example.com:443"
              then Connected [leafCert]
              else DialError "dial tcp: lookup iamateapot: no such host";
     wallclock := fun n => sampleNow + Z.of_nat n * Second;
     ticks := 0 |}.

(** A certificate that expired three days ago, and one that is valid until
    the end of the year 9999. *)
Definition lapsedCert : Certificate :=
  {| NotAfter := sampleNow - 72 * Hour;
     cert_Signature := [x30; x44; x02; x20];
     cert_SerialNumber := 77 |}.

Definition distantCert : Certificate :=
  {| NotAfter := 253402300799 * Second;
     cert_Signature := [x30; x45; x02; x20];
     cert_SerialNumber := 1 |}.

Definition lapsedWorld : World :=
  {| net := fun _ => Connected [leafCert; lapsedCert];
     wallclock := fun n => sampleNow + Z.of_nat n * Second;
     ticks := 0 |}.

Definition sampleChain : list CertificateStatus :=
  fst (fst (FetchChain sampleWorld "example.com:443")).

Definition sampleWorldAfter : World :=
  snd (FetchChain sampleWorld "example.com:443").

Definition sampleFailure : string :=
  "Could not establish connection to outbound address iamateapot:418 - dial tcp: lookup iamateapot: no such host".

(** * Properties *)

(** ** binary64 rounding

    The operations of [SpecFloat] all end in [binary_round_aux].  What the
    proofs below need from it is that it is _faithful_: the result is a
    representable neighbour of the exact value, and the exact value itself
    when that is representable.  Only the normal range is covered; the
    values that occur in [Hours] lie between [2^-42] and [2^22]. *)

Lemma bpow_pos e : (0 < bpow e)%R.
Proof. apply powerRZ_lt. lra. Qed.

Lemma bpow_add a b : bpow (a + b) = (bpow a * bpow b)%R.
Proof. apply powerRZ_add. lra. Qed.

Lemma bpow_IZR k : 0 <= k -> bpow k = IZR (2 ^ k).
Proof.
  intros Hk. destruct k as [|p|p]; [reflexivity| |lia].
  unfold bpow. change (2 ^ Z.pos p) with (Z.pow_pos 2 p).
  now rewrite Zpower_pos_powerRZ.
Qed.

Lemma bpow_le a b : a <= b -> (bpow a <= bpow b)%R.
Proof.
  intros H. replace b with (a + (b - a)) by lia.
  rewrite bpow_add, (bpow_IZR (b - a)) by lia.
  assert (1 <= 2 ^ (b - a)).
  { pose proof (Z.pow_pos_nonneg 2 (b - a)). lia. }
  apply IZR_le in H0. pose proof (bpow_pos a). nra.
Qed.

Lemma bpow_lt a b : a < b -> (bpow a < bpow b)%R.
Proof.
  intros H. replace b with (a + (b - a)) by lia.
  rewrite bpow_add, (bpow_IZR (b - a)) by lia.
  assert (2 <= 2 ^ (b - a)).
  { change 2 with (2 ^ 1) at 1. apply Z.pow_le_mono_r; lia. }
  apply IZR_le in H0. pose proof (bpow_pos a). nra.
Qed.

Lemma F2R_shift m e k : 0 <= k -> F2R (m * 2 ^ k) e = F2R m (e + k).
Proof.
  intros Hk. unfold F2R. rewrite mult_IZR, <- bpow_IZR by lia.
  rewrite (Z.add_comm e k), bpow_add. ring.
Qed.

Lemma F2R_le m1 m2 e : m1 <= m2 -> (F2R m1 e <= F2R m2 e)%R.
Proof.
  intros H. unfold F2R. apply IZR_le in H. pose proof (bpow_pos e). nra.
Qed.

Lemma F2R_lt_inv m1 m2 e : (F2R m1 e < F2R m2 e)%R -> m1 < m2.
Proof.
  intros H. unfold F2R in H. apply lt_IZR. pose proof (bpow_pos e). nra.
Qed.

Lemma F2R_le_inv m1 m2 e : (F2R m1 e <= F2R m2 e)%R -> m1 <= m2.
Proof.
  intros H. unfold F2R in H. apply le_IZR. pose proof (bpow_pos e). nra.
Qed.

Lemma digits_bounds p :
  2 ^ (Z.pos (digits2_pos p) - 1) <= Z.pos p < 2 ^ Z.pos (digits2_pos p).
Proof.
  induction p as [p IH|p IH|]; simpl digits2_pos.
  - rewrite Pos2Z.inj_succ.
    replace (Z.succ (Z.pos (digits2_pos p)) - 1)
      with (Z.succ (Z.pos (digits2_pos p) - 1)) by lia.
    rewrite !Z.pow_succ_r by lia.
    change (Z.pos p~1) with (2 * Z.pos p + 1). lia.
  - rewrite Pos2Z.inj_succ.
    replace (Z.succ (Z.pos (digits2_pos p)) - 1)
      with (Z.succ (Z.pos (digits2_pos p) - 1)) by lia.
    rewrite !Z.pow_succ_r by lia.
    change (Z.pos p~0) with (2 * Z.pos p). lia.
  - simpl. lia.
Qed.

Lemma digits_le p k : Z.pos p < 2 ^ k -> Z.pos (digits2_pos p) <= k.
Proof.
  intros H. destruct (Z.le_gt_cases (Z.pos (digits2_pos p)) k) as [|Hgt]; auto.
  pose proof (digits_bounds p) as [Hlo _].
  assert (0 <= k \/ k < 0) as [Hk|Hk] by lia.
  - assert (2 ^ k <= 2 ^ (Z.pos (digits2_pos p) - 1))
      by (apply Z.pow_le_mono_r; lia). lia.
  - rewrite Z.pow_neg_r in H by lia. lia.
Qed.

Lemma digits_gt p k : 2 ^ k <= Z.pos p -> k < Z.pos (digits2_pos p).
Proof.
  intros H. destruct (Z.lt_ge_cases k (Z.pos (digits2_pos p))) as [|Hge]; auto.
  pose proof (digits_bounds p) as [_ Hhi].
  assert (2 ^ Z.pos (digits2_pos p) <= 2 ^ k)
    by (apply Z.pow_le_mono_r; lia). lia.
Qed.

Lemma IZR_xI p : IZR (Z.pos p~1) = (2 * IZR (Z.pos p) + 1)%R.
Proof. change (Z.pos p~1) with (2 * Z.pos p + 1). now rewrite plus_IZR, mult_IZR. Qed.

Lemma IZR_xO p : IZR (Z.pos p~0) = (2 * IZR (Z.pos p))%R.
Proof. change (Z.pos p~0) with (2 * Z.pos p). now rewrite mult_IZR. Qed.

Lemma bpow_succ e : bpow (e + 1) = (bpow e * 2)%R.
Proof. rewrite bpow_add. f_equal. unfold bpow. simpl. lra. Qed.

(** One step of the right shift keeps the number between the same two
    consecutive multiples, one binade up. *)
Lemma shr_1_inbetween mrs e x :
  0 <= shr_m mrs ->
  inbetween (shr_m mrs) e (loc_of_shr_record mrs) x ->
  0 <= shr_m (shr_1 mrs)
  /\ inbetween (shr_m (shr_1 mrs)) (e + 1) (loc_of_shr_record (shr_1 mrs)) x.
Proof.
  destruct mrs as [m r s]. cbn [shr_m]. intros Hm.
  pose proof (bpow_succ e) as Hb.
  pose proof (bpow_pos e) as Hp.
  destruct m as [|p|p]; [| |lia].
  - destruct r, s; cbn; unfold F2R; rewrite ?Hb; cbn; intros H;
      (split; [lia|]); lra.
  - destruct p as [p|p|]; destruct r, s; cbn -[IZR Z.add]; unfold F2R;
      rewrite ?Hb; intros H; (split; [lia|]);
      rewrite ?plus_IZR, ?(IZR_xI p), ?(IZR_xO p) in *; try lra.
Qed.

Lemma iter_shr_1_inbetween p :
  forall mrs e x,
    0 <= shr_m mrs ->
    inbetween (shr_m mrs) e (loc_of_shr_record mrs) x ->
    0 <= shr_m (SpecFloat.iter_pos shr_1 p mrs)
    /\ inbetween (shr_m (SpecFloat.iter_pos shr_1 p mrs)) (e + Z.pos p)
         (loc_of_shr_record (SpecFloat.iter_pos shr_1 p mrs)) x.
Proof.
  induction p as [p IH|p IH|]; intros mrs e x Hm Hx; cbn [SpecFloat.iter_pos].
  - destruct (shr_1_inbetween _ _ _ Hm Hx) as [H1 H2].
    destruct (IH _ _ _ H1 H2) as [H3 H4].
    destruct (IH _ _ _ H3 H4) as [H5 H6].
    split; auto.
    replace (e + Z.pos p~1) with (e + 1 + Z.pos p + Z.pos p) by lia. auto.
  - destruct (IH _ _ _ Hm Hx) as [H3 H4].
    destruct (IH _ _ _ H3 H4) as [H5 H6].
    split; auto.
    replace (e + Z.pos p~0) with (e + Z.pos p + Z.pos p) by lia. auto.
  - now apply shr_1_inbetween.
Qed.

Lemma shr_inbetween m l e n x :
  0 <= m -> 0 <= n -> inbetween m e l x ->
  exists mrs',
    shr (shr_record_of_loc m l) e n = (mrs', e + n)
    /\ 0 <= shr_m mrs'
    /\ inbetween (shr_m mrs') (e + n) (loc_of_shr_record mrs') x.
Proof.
  intros Hm Hn Hx.
  assert (Hl : loc_of_shr_record (shr_record_of_loc m l) = l)
    by (destruct l as [|[]]; reflexivity).
  assert (Hs : shr_m (shr_record_of_loc m l) = m)
    by (destruct l as [|[]]; reflexivity).
  destruct n as [|p|p]; [| |lia]; cbn [shr].
  - exists (shr_record_of_loc m l). rewrite Z.add_0_r, Hl, Hs. auto.
  - exists (SpecFloat.iter_pos shr_1 p (shr_record_of_loc m l)).
    split; [reflexivity|].
    apply iter_shr_1_inbetween; rewrite ?Hl, Hs; auto.
Qed.

Lemma inbetween_bounds m e l x :
  inbetween m e l x -> (F2R m e <= x < F2R (m + 1) e)%R.
Proof.
  assert (F2R m e < F2R (m + 1) e)%R.
  { unfold F2R. rewrite plus_IZR. pose proof (bpow_pos e). lra. }
  destruct l; simpl; intros Hx; lra.
Qed.

Lemma F2R_pow2 k e : 0 <= k -> F2R (2 ^ k) e = bpow (k + e).
Proof. intros Hk. unfold F2R. now rewrite <- bpow_IZR, bpow_add. Qed.

Lemma bpow_lt_inv a b : (bpow a < bpow b)%R -> a < b.
Proof.
  intros H. destruct (Z.lt_ge_cases a b) as [|Hge]; auto.
  apply bpow_le in Hge. lra.
Qed.

Lemma digits_unique p k :
  2 ^ (k - 1) <= Z.pos p < 2 ^ k -> Z.pos (digits2_pos p) = k.
Proof.
  intros [Hlo Hhi]. pose proof (digits_le p k Hhi).
  pose proof (digits_gt p (k - 1) Hlo). lia.
Qed.

(** Values with at most [prec] significant bits above the smallest
    exponent never fall strictly between two neighbours of a normalised
    mantissa. *)
Lemma grid_below m e g x :
  2 ^ 52 <= m -> representable g ->
  (x < F2R (m + 1) e)%R -> (g <= x)%R -> (g <= F2R m e)%R.
Proof.
  intros Hm (mg & eg & -> & [Hg0 Hg1] & Heg) Hx Hgx.
  destruct (Z.le_gt_cases e eg) as [Hle | Hgt].
  - replace eg with (e + (eg - e)) in * by lia.
    rewrite <- F2R_shift in * by lia.
    apply F2R_le. assert (mg * 2 ^ (eg - e) < m + 1); [|lia].
    apply (F2R_lt_inv _ _ e). lra.
  - apply Rle_trans with (F2R (2 ^ 53) eg).
    + apply F2R_le. exact Hg1.
    + apply Rle_trans with (F2R (2 ^ 52) e).
      * rewrite !F2R_pow2 by lia. apply bpow_le. lia.
      * apply F2R_le. exact Hm.
Qed.

Lemma grid_above m e g x :
  2 ^ 52 <= m -> representable g ->
  (F2R m e < x)%R -> (x <= g)%R -> (F2R (m + 1) e <= g)%R.
Proof.
  intros Hm (mg & eg & -> & [Hg0 Hg1] & Heg) Hx Hgx.
  destruct (Z.le_gt_cases e eg) as [Hle | Hgt].
  - replace eg with (e + (eg - e)) in * by lia.
    rewrite <- F2R_shift in * by lia.
    apply F2R_le. assert (m < mg * 2 ^ (eg - e)); [|lia].
    apply (F2R_lt_inv _ _ e). lra.
  - exfalso.
    assert (F2R mg eg <= F2R m e)%R; [|lra].
    apply Rle_trans with (F2R (2 ^ 53) eg).
    + apply F2R_le. exact Hg1.
    + apply Rle_trans with (F2R (2 ^ 52) e).
      * rewrite !F2R_pow2 by lia. apply bpow_le. lia.
      * apply F2R_le. exact Hm.
Qed.

Lemma fexp_normal e :
  emin prec emax + prec <= e -> fexp prec emax e = e - prec.
Proof. unfold fexp, emin, prec, emax. lia. Qed.

(** The rounding step of every arithmetic operation, in the normal range:
    the result is a normalised float whose value is a neighbour of the exact
    value [x] among the representable numbers. *)
Lemma binary_round_aux_faithful s mx ex lx x :
  0 < mx ->
  inbetween mx ex lx x ->
  ex <= fexp prec emax (Zdigits2 mx + ex) ->
  emin prec emax + prec <= Zdigits2 mx + ex <= 1000 ->
  exists m e,
    binary_round_aux prec emax s mx ex lx = S754_finite s m e
    /\ 2 ^ 52 <= Z.pos m < 2 ^ 53
    /\ Zdigits2 mx + ex - prec <= e <= Zdigits2 mx + ex - prec + 1
    /\ faithful x (F2R (Z.pos m) e).
Proof.
  intros Hmx Hx Hex Hrange.
  destruct mx as [|pmx|pmx]; try lia. cbn [Zdigits2] in *.
  set (d := Z.pos (digits2_pos pmx)) in *.
  pose proof (digits_bounds pmx) as Hd. fold d in Hd.
  rewrite fexp_normal in Hex by lia.
  unfold binary_round_aux, shr_fexp. cbn [Zdigits2]. fold d.
  rewrite fexp_normal by lia.
  destruct (shr_inbetween (Z.pos pmx) lx ex (d + ex - prec - ex) x)
    as (mrs' & -> & Hm'0 & Hin'); [lia | lia | exact Hx |].
  replace (ex + (d + ex - prec - ex)) with (d + ex - prec) in * by lia.
  set (e' := d + ex - prec) in *.
  set (m' := shr_m mrs') in *.
  set (l' := loc_of_shr_record mrs') in *.
  pose proof (inbetween_bounds _ _ _ _ Hx) as Hxb.
  pose proof (inbetween_bounds _ _ _ _ Hin') as Hxb'.
  assert (Hm'hi : m' < 2 ^ 53).
  { apply (F2R_lt_inv _ _ e').
    apply Rle_lt_trans with x; [lra|].
    apply Rlt_le_trans with (F2R (Z.pos pmx + 1) ex); [lra|].
    apply Rle_trans with (F2R (2 ^ d) ex); [apply F2R_le; lia|].
    rewrite !F2R_pow2 by lia. apply bpow_le. unfold e', prec. lia. }
  assert (Hm'lo : 2 ^ 52 <= m').
  { assert (2 ^ 52 < m' + 1); [|lia].
    apply (F2R_lt_inv _ _ e').
    apply Rle_lt_trans with x; [|lra].
    apply Rle_trans with (F2R (Z.pos pmx) ex); [|lra].
    apply Rle_trans with (F2R (2 ^ (d - 1)) ex); [|apply F2R_le; lia].
    rewrite !F2R_pow2 by lia. apply bpow_le. unfold e', prec. lia. }
  set (m1 := round_nearest_even m' l').
  assert (Hm1 : m' <= m1 <= m' + 1 /\ (l' = loc_Exact -> m1 = m')).
  { unfold m1, round_nearest_even.
    destruct l' as [|[]]; try destruct (Z.even m'); split; (lia || auto);
      discriminate. }
  destruct Hm1 as [Hm1 Hm1e].
  assert (Hfaith : faithful x (F2R m1 e')).
  { split; intros g Hg Hgx.
    - apply Rle_trans with (F2R m' e').
      + apply (grid_below m' e' g x); auto; lra.
      + apply F2R_le. lia.
    - destruct l' as [|c] eqn:El.
      + rewrite Hm1e by reflexivity. simpl in Hin'. lra.
      + simpl in Hin'.
        apply Rle_trans with (F2R (m' + 1) e').
        * apply F2R_le. lia.
        * apply (grid_above m' e' g x); auto; lra. }
  destruct (Z.eq_dec m1 (2 ^ 53)) as [Heq | Hne].
  - (* the mantissa overflowed into the next binade *)
    rewrite Heq in *.
    change (Zdigits2 (2 ^ 53)) with 54.
    rewrite fexp_normal by (unfold e', emin, prec, emax in *; lia).
    replace (54 + e' - prec - e') with 1 by (unfold prec; lia).
    cbn [shr shr_record_of_loc SpecFloat.iter_pos shr_1 shr_m Z.pow Z.pow_pos Pos.iter Z.mul Pos.mul].
    assert (Hle : (e' + 1 <=? emax - prec) = true)
      by (apply Z.leb_le; unfold e', emax, prec in *; lia).
    rewrite Hle.
    eexists _, _. split; [reflexivity|].
    split; [lia|]. split; [unfold e', prec; lia|].
    replace (F2R (Z.pos 4503599627370496) (e' + 1)) with (F2R (2 ^ 53) e');
      [exact Hfaith|].
    change (2 ^ 53) with (4503599627370496 * 2 ^ 1).
    now rewrite F2R_shift by lia.
  - assert (Hm1p : 2 ^ 52 <= m1 < 2 ^ 53) by lia.
    destruct m1 as [|pm1|pm1] eqn:Em1; try lia.
    cbn [Zdigits2].
    rewrite (digits_unique pm1 53) by (change (53 - 1) with 52; lia).
    rewrite fexp_normal by (unfold e', emin, prec, emax in *; lia).
    replace (53 + e' - prec - e') with 0 by (unfold prec; lia).
    cbn [shr shr_record_of_loc shr_m].
    assert (Hle : (e' <=? emax - prec) = true)
      by (apply Z.leb_le; unfold e', emax, prec in *; lia).
    rewrite Hle.
    eexists _, _. split; [reflexivity|].
    split; [lia|]. split; [unfold e', prec; lia|]. exact Hfaith.
Qed.

Lemma faithful_refl x : faithful x x.
Proof. split; auto. Qed.

Lemma faithful_exact x v : representable x -> faithful x v -> v = x.
Proof. intros Hr [Hlo Hhi]. apply Rle_antisym; auto using Rle_refl. Qed.

Lemma representable_int z : 0 <= z <= 2 ^ 53 -> representable (IZR z).
Proof.
  intros Hz. exists z, 0. unfold F2R, bpow, emin, emax, prec. simpl.
  split; [ring | split; [exact Hz | lia]].
Qed.

Lemma representable_scaled z k :
  0 <= z <= 2 ^ 53 -> -1074 <= k -> representable (F2R z k).
Proof.
  intros Hz Hk. exists z, k. unfold emin, emax, prec.
  split; [reflexivity | split; [exact Hz | lia]].
Qed.

(** Position of the leading bit. *)
Lemma F2R_digits_bounds p e :
  (bpow (Z.pos (digits2_pos p) - 1 + e) <= F2R (Z.pos p) e
   < bpow (Z.pos (digits2_pos p) + e))%R.
Proof.
  pose proof (digits_bounds p) as [Hlo Hhi].
  rewrite <- !F2R_pow2 by lia. split.
  - apply F2R_le. exact Hlo.
  - unfold F2R. apply IZR_lt in Hhi. pose proof (bpow_pos e). nra.
Qed.

Lemma digits_of_value_lo p e a :
  (bpow a <= F2R (Z.pos p) e)%R -> a < Z.pos (digits2_pos p) + e.
Proof.
  intros H. apply bpow_lt_inv. pose proof (F2R_digits_bounds p e). lra.
Qed.

Lemma digits_of_value_hi p e b :
  (F2R (Z.pos p) e < bpow b)%R -> Z.pos (digits2_pos p) + e <= b.
Proof.
  intros H. assert (Z.pos (digits2_pos p) - 1 + e < b); [|lia].
  apply bpow_lt_inv. pose proof (F2R_digits_bounds p e). lra.
Qed.

Lemma iter_xO_pow2 d m : Z.pos (Pos.iter xO m d) = Z.pos m * 2 ^ Z.pos d.
Proof.
  change (Pos.iter xO m d) with (shift_pos d m).
  rewrite shift_pos_correct. change (2 ^ Z.pos d) with (Z.pow_pos 2 d). lia.
Qed.

Lemma shl_align_spec mx ex ex' :
  exists mz ez,
    shl_align mx ex ex' = (mz, ez)
    /\ ez = Z.min ex ex'
    /\ Z.pos mz = Z.pos mx * 2 ^ (ex - ez).
Proof.
  unfold shl_align. destruct (ex' - ex) as [|d|d] eqn:E.
  - exists mx, ex. replace (Z.min ex ex') with ex by lia.
    rewrite Z.sub_diag. split; [reflexivity | split; lia].
  - exists mx, ex. replace (Z.min ex ex') with ex by lia.
    rewrite Z.sub_diag. split; [reflexivity | split; lia].
  - exists (Pos.iter xO mx d), ex'. replace (Z.min ex ex') with ex' by lia.
    replace (ex - ex') with (Z.pos d) by lia.
    split; [reflexivity | split; [lia | apply iter_xO_pow2]].
Qed.

Lemma shl_align_value mx ex ex' mz ez :
  shl_align mx ex ex' = (mz, ez) ->
  ez = Z.min ex ex' /\ F2R (Z.pos mz) ez = F2R (Z.pos mx) ex.
Proof.
  intros H. destruct (shl_align_spec mx ex ex') as (mz' & ez' & H' & He & Hm).
  rewrite H in H'. injection H' as Emz Eez. rewrite Emz, Eez.
  split; [exact He|].
  rewrite Hm, F2R_shift by lia. f_equal. lia.
Qed.

(** [binary_round] on an exact dyadic value in the normal range. *)
Lemma binary_round_faithful s mx ex :
  (bpow (-1022) <= F2R (Z.pos mx) ex < bpow 1000)%R ->
  exists m e,
    binary_round prec emax s mx ex = S754_finite s m e
    /\ 2 ^ 52 <= Z.pos m < 2 ^ 53
    /\ faithful (F2R (Z.pos mx) ex) (F2R (Z.pos m) e).
Proof.
  intros [Hlo Hhi].
  apply digits_of_value_lo in Hlo. apply digits_of_value_hi in Hhi.
  unfold binary_round.
  destruct (shl_align mx ex (fexp prec emax (Z.pos (digits2_pos mx) + ex)))
    as [mz ez] eqn:E.
  destruct (shl_align_value _ _ _ _ _ E) as [Hez Hv].
  assert (Hd : Z.pos (digits2_pos mz) + ez = Z.pos (digits2_pos mx) + ex).
  { pose proof (F2R_digits_bounds mz ez) as Hb. rewrite Hv in Hb.
    pose proof (F2R_digits_bounds mx ex) as Hb'.
    assert (Z.pos (digits2_pos mz) - 1 + ez < Z.pos (digits2_pos mx) + ex)
      by (apply bpow_lt_inv; lra).
    assert (Z.pos (digits2_pos mx) - 1 + ex < Z.pos (digits2_pos mz) + ez)
      by (apply bpow_lt_inv; lra).
    lia. }
  destruct (binary_round_aux_faithful s (Z.pos mz) ez loc_Exact
              (F2R (Z.pos mx) ex)) as (m & e & Hr & Hm & _ & Hf).
  - lia.
  - simpl. now rewrite Hv.
  - cbn [Zdigits2]. rewrite Hd. lia.
  - cbn [Zdigits2]. rewrite Hd. unfold emin, emax, prec. lia.
  - exists m, e. auto.
Qed.

Lemma F2R_0 m : F2R m 0 = IZR m.
Proof. unfold F2R, bpow. simpl. ring. Qed.

Lemma F2R_add m1 m2 e : F2R (m1 + m2) e = (F2R m1 e + F2R m2 e)%R.
Proof. unfold F2R. rewrite plus_IZR. ring. Qed.

Lemma bpow_0 : bpow 0 = 1%R.
Proof. reflexivity. Qed.

Lemma of_int_faithful p :
  (IZR (Z.pos p) < bpow 1000)%R ->
  exists m e,
    of_int (Z.pos p) = S754_finite false m e
    /\ 2 ^ 52 <= Z.pos m < 2 ^ 53
    /\ faithful (IZR (Z.pos p)) (F2R (Z.pos m) e).
Proof.
  intros Hp. unfold of_int, binary_normalize.
  rewrite <- (F2R_0 (Z.pos p)) in *.
  apply binary_round_faithful. split; [|exact Hp].
  apply Rle_trans with (bpow 0); [apply bpow_le; lia|].
  rewrite F2R_0, bpow_0. apply IZR_le. lia.
Qed.

Lemma add_pos_faithful mx ex my ey :
  (bpow (-1022) <= F2R (Z.pos mx) ex + F2R (Z.pos my) ey < bpow 1000)%R ->
  exists m e,
    add (S754_finite false mx ex) (S754_finite false my ey)
    = S754_finite false m e
    /\ 2 ^ 52 <= Z.pos m < 2 ^ 53
    /\ faithful (F2R (Z.pos mx) ex + F2R (Z.pos my) ey) (F2R (Z.pos m) e).
Proof.
  intros Hx. unfold add, SFadd.
  destruct (shl_align mx ex (Z.min ex ey)) as [mx' ex'] eqn:Ex.
  destruct (shl_align my ey (Z.min ex ey)) as [my' ey'] eqn:Ey.
  destruct (shl_align_value _ _ _ _ _ Ex) as [Hex' Hvx].
  destruct (shl_align_value _ _ _ _ _ Ey) as [Hey' Hvy].
  replace (Z.min ex (Z.min ex ey)) with (Z.min ex ey) in Hex' by lia.
  replace (Z.min ey (Z.min ex ey)) with (Z.min ex ey) in Hey' by lia.
  rewrite Hex' in Hvx. rewrite Hey' in Hvy.
  cbn [fst cond_Zopp Z.add binary_normalize].
  rewrite <- Hvx, <- Hvy, <- F2R_add in *.
  change (Z.pos mx' + Z.pos my') with (Z.pos (mx' + my')) in *.
  now apply binary_round_faithful.
Qed.

Lemma new_location_cases nb k :
  (k = 0 -> new_location nb k = loc_Exact)
  /\ (k <> 0 -> exists c, new_location nb k = loc_Inexact c).
Proof.
  unfold new_location, new_location_even, new_location_odd.
  destruct (Z.even nb); destruct (Z.eqb_spec k 0); split; intros; try lia;
    eauto.
Qed.

Lemma div_pos_faithful sx mx ex my ey :
  -1021 <= Z.pos (digits2_pos mx) + ex - (Z.pos (digits2_pos my) + ey) <= 999 ->
  exists m e,
    div (S754_finite sx mx ex) (S754_finite false my ey) = S754_finite sx m e
    /\ 2 ^ 52 <= Z.pos m < 2 ^ 53
    /\ faithful (F2R (Z.pos mx) ex / F2R (Z.pos my) ey) (F2R (Z.pos m) e).
Proof.
  intros HD. unfold div, SFdiv, SFdiv_core_binary. cbn [Zdigits2].
  rewrite xorb_false_r.
  set (d1 := Z.pos (digits2_pos mx)) in *.
  set (d2 := Z.pos (digits2_pos my)) in *.
  rewrite fexp_normal by (unfold emin, emax, prec; lia).
  set (D := d1 + ex - (d2 + ey)) in *.
  set (e' := Z.min (D - prec) (ex - ey)).
  set (s := ex - ey - e').
  assert (Hs : 0 <= s) by (unfold s, e'; lia).
  set (m' := match s with
             | 0 => Z.pos mx
             | Z.pos _ => Z.shiftl (Z.pos mx) s
             | Z.neg _ => 0
             end).
  assert (Hm' : m' = Z.pos mx * 2 ^ s).
  { unfold m'. destruct s as [|ps|ps] eqn:Es; [simpl; lia | | lia].
    now rewrite Z.shiftl_mul_pow2 by lia. }
  clearbody m'.
  pose proof (Z_div_mod m' (Z.pos my) eq_refl) as Hdm.
  destruct (Z.div_eucl m' (Z.pos my)) as [q r]. destruct Hdm as [Hqr Hr].
  set (X := (F2R (Z.pos mx) ex / F2R (Z.pos my) ey)%R).
  pose proof (bpow_pos ex) as Hbex. pose proof (bpow_pos ey) as Hbey.
  pose proof (bpow_pos e') as Hbe'.
  assert (Hmy : (0 < IZR (Z.pos my))%R) by (apply IZR_lt; lia).
  assert (HX : X = ((IZR q + IZR r / IZR (Z.pos my)) * bpow e')%R).
  { unfold X, F2R.
    replace ex with (s + (e' + ey)) by (unfold s; lia).
    rewrite !bpow_add, (bpow_IZR s) by lia.
    assert (Hi : (IZR (Z.pos mx) * IZR (2 ^ s)
                  = IZR (Z.pos my) * IZR q + IZR r)%R).
    { rewrite <- !mult_IZR, <- plus_IZR. f_equal. lia. }
    replace (IZR q + IZR r / IZR (Z.pos my))%R
      with (IZR (Z.pos mx) * IZR (2 ^ s) / IZR (Z.pos my))%R
      by (rewrite Hi; field; lra).
    field. split; lra. }
  assert (Hin : inbetween q e' (new_location (Z.pos my) r) X).
  { destruct (new_location_cases (Z.pos my) r) as [H0 H1].
    destruct (Z.eq_dec r 0) as [-> | Hr0].
    - rewrite H0 by reflexivity. simpl. rewrite HX. unfold F2R.
      unfold Rdiv. rewrite Rmult_0_l. ring.
    - destruct (H1 Hr0) as [c ->]. simpl. rewrite HX. unfold F2R.
      rewrite plus_IZR.
      assert (0 < IZR r / IZR (Z.pos my) < 1)%R.
      { assert (0 < IZR r < IZR (Z.pos my))%R
          by (split; apply IZR_lt; lia).
        split.
        - apply Rdiv_lt_0_compat; lra.
        - apply Rmult_lt_reg_r with (IZR (Z.pos my)); [lra|].
          unfold Rdiv. rewrite Rmult_assoc, Rinv_l by lra. lra. }
      nra. }
  pose proof (inbetween_bounds _ _ _ _ Hin) as HXb.
  pose proof (F2R_digits_bounds mx ex) as Hbx. fold d1 in Hbx.
  pose proof (F2R_digits_bounds my ey) as Hby. fold d2 in Hby.
  assert (HXr : (bpow (D - 1) < X < bpow (D + 1))%R).
  { assert (Hy0 : (0 < F2R (Z.pos my) ey)%R) by (unfold F2R; nra).
    assert (HXy : (X * F2R (Z.pos my) ey = F2R (Z.pos mx) ex)%R).
    { unfold X. field. lra. }
    assert (E1 : bpow (d1 - 1 + ex) = (bpow (D - 1) * bpow (d2 + ey))%R).
    { rewrite <- bpow_add. f_equal. unfold D. lia. }
    assert (E2 : bpow (d1 + ex) = (bpow (D + 1) * bpow (d2 - 1 + ey))%R).
    { rewrite <- bpow_add. f_equal. unfold D. lia. }
    pose proof (bpow_pos (D - 1)). pose proof (bpow_pos (D + 1)).
    pose proof (bpow_pos (d2 - 1 + ey)).
    split.
    - apply Rmult_lt_reg_r with (F2R (Z.pos my) ey); [exact Hy0|].
      rewrite HXy. apply Rlt_le_trans with (bpow (D - 1) * bpow (d2 + ey))%R.
      + apply Rmult_lt_compat_l; lra.
      + lra.
    - apply Rmult_lt_reg_r with (F2R (Z.pos my) ey); [exact Hy0|].
      rewrite HXy. apply Rlt_le_trans with (bpow (D + 1) * bpow (d2 - 1 + ey))%R.
      + lra.
      + apply Rmult_le_compat_l; lra. }
  assert (He' : e' <= D - prec) by (unfold e'; lia).
  assert (Hqlo : 2 ^ (D - 1 - e') <= q).
  { assert (2 ^ (D - 1 - e') < q + 1); [|lia].
    apply (F2R_lt_inv _ _ e'). rewrite F2R_pow2 by (unfold prec in *; lia).
    replace (D - 1 - e' + e') with (D - 1) by lia. lra. }
  assert (Hqhi : q < 2 ^ (D + 1 - e')).
  { apply (F2R_lt_inv _ _ e'). rewrite F2R_pow2 by (unfold prec in *; lia).
    replace (D + 1 - e' + e') with (D + 1) by lia. lra. }
  assert (H52 : 2 ^ 52 <= 2 ^ (D - 1 - e'))
    by (apply Z.pow_le_mono_r; unfold prec in *; lia).
  destruct q as [|pq|pq]; try lia.
  pose proof (digits_gt pq _ Hqlo) as Hdlo.
  pose proof (digits_le pq _ Hqhi) as Hdhi.
  destruct (binary_round_aux_faithful sx (Z.pos pq) e'
              (new_location (Z.pos my) r) X) as (m & e & Hres & Hm & _ & Hf).
  - lia.
  - exact Hin.
  - cbn [Zdigits2]. rewrite fexp_normal by (unfold emin, emax, prec; lia). lia.
  - cbn [Zdigits2]. unfold emin, emax, prec. lia.
  - exists m, e. auto.
Qed.

(** ** Conversion back to an integer *)

Lemma magnitude_floor m e :
  0 <= magnitude m e
  /\ (IZR (magnitude m e) <= F2R (Z.pos m) e < IZR (magnitude m e) + 1)%R.
Proof.
  unfold magnitude. destruct e as [|p|p].
  - rewrite Z.mul_1_r, F2R_0. split; [lia | lra].
  - rewrite <- (F2R_0 (Z.pos m * 2 ^ Z.pos p)), F2R_shift by lia.
    rewrite Z.add_0_l. split; [lia | lra].
  - assert (Hp : 0 < 2 ^ Z.pos p) by (apply Z.pow_pos_nonneg; lia).
    pose proof (Z.div_mod (Z.pos m) (2 ^ Z.pos p) ltac:(lia)) as Hdm.
    pose proof (Z.mod_pos_bound (Z.pos m) (2 ^ Z.pos p) Hp) as Hr.
    set (a := Z.pos m / 2 ^ Z.pos p) in *.
    set (r := Z.pos m mod 2 ^ Z.pos p) in *.
    assert (Ha : 0 <= a) by (apply Z.div_pos; lia).
    split; [exact Ha|].
    assert (Hb : (bpow (Z.neg p) * IZR (2 ^ Z.pos p) = 1)%R).
    { rewrite <- bpow_IZR, <- bpow_add by lia.
      replace (Z.neg p + Z.pos p) with 0 by lia. reflexivity. }
    assert (Hv : F2R (Z.pos m) (Z.neg p)
                 = (IZR a + IZR r * bpow (Z.neg p))%R).
    { unfold F2R. rewrite Hdm, plus_IZR, mult_IZR.
      rewrite Rmult_plus_distr_r.
      replace (IZR (2 ^ Z.pos p) * IZR a * bpow (Z.neg p))%R
        with (IZR a * (bpow (Z.neg p) * IZR (2 ^ Z.pos p)))%R by ring.
      rewrite Hb. ring. }
    rewrite Hv. pose proof (bpow_pos (Z.neg p)) as Hbp.
    assert (0 <= IZR r * bpow (Z.neg p) < 1)%R.
    { assert (0 <= IZR r)%R by (apply IZR_le; lia).
      assert (IZR r < IZR (2 ^ Z.pos p))%R by (apply IZR_lt; lia).
      split; [nra|]. rewrite <- Hb. nra. }
    lra.
Qed.

Lemma to_int_finite s m e :
  (F2R (Z.pos m) e < bpow 63)%R ->
  to_int (S754_finite s m e) = cond_Zopp s (magnitude m e)
  /\ 0 <= magnitude m e < 2 ^ 63.
Proof.
  intros Hv. destruct (magnitude_floor m e) as [H0 [Hlo Hhi]].
  assert (Hlt : magnitude m e < 2 ^ 63).
  { apply lt_IZR. rewrite <- bpow_IZR by lia. lra. }
  split; [|lia].
  unfold to_int. fold (magnitude m e).
  assert (Hin : (minInt64 <=? cond_Zopp s (magnitude m e))
                && (cond_Zopp s (magnitude m e) <=? maxInt64) = true).
  { apply andb_true_iff. unfold minInt64, maxInt64.
    split; apply Z.leb_le; destruct s; simpl; lia. }
  now rewrite Hin.
Qed.

(** ** Symmetry in the sign *)

Lemma binary_round_aux_opp s m e l :
  binary_round_aux prec emax (negb s) m e l
  = SFopp (binary_round_aux prec emax s m e l).
Proof.
  unfold binary_round_aux.
  destruct (shr_fexp prec emax m e l) as [mrs' e'].
  destruct (shr_fexp prec emax _ e' loc_Exact) as [mrs'' e''].
  destruct (shr_m mrs''); try reflexivity.
  destruct (e'' <=? emax - prec); reflexivity.
Qed.

Lemma binary_round_opp s m e :
  binary_round prec emax (negb s) m e = SFopp (binary_round prec emax s m e).
Proof.
  unfold binary_round. destruct (shl_align m e _) as [mz ez].
  apply binary_round_aux_opp.
Qed.

Lemma of_int_opp z : z <> 0 -> of_int (- z) = SFopp (of_int z).
Proof.
  intros Hz. unfold of_int, binary_normalize.
  destruct z as [|p|p]; [lia| |]; simpl Z.opp.
  - apply (binary_round_opp false).
  - rewrite (binary_round_opp false).
    destruct (binary_round prec emax false p 0); simpl;
      rewrite ?Bool.negb_involutive; reflexivity.
Qed.

Lemma div_opp_l x y : div (SFopp x) y = SFopp (div x y).
Proof.
  unfold div, SFdiv.
  destruct x as [sx|sx| |sx mx ex], y as [sy|sy| |sy my ey];
    cbn [SFopp]; try reflexivity;
    try (destruct sx, sy; reflexivity).
  destruct (SFdiv_core_binary prec emax (Z.pos mx) ex (Z.pos my) ey)
    as [[mz ez] lz].
  replace (xorb (negb sx) sy) with (negb (xorb sx sy))
    by (destruct sx, sy; reflexivity).
  apply binary_round_aux_opp.
Qed.

Lemma add_opp_pos mx ex my ey :
  add (S754_finite true mx ex) (S754_finite true my ey)
  = SFopp (add (S754_finite false mx ex) (S754_finite false my ey)).
Proof.
  unfold add, SFadd.
  destruct (shl_align mx ex (Z.min ex ey)) as [mx' ex'].
  destruct (shl_align my ey (Z.min ex ey)) as [my' ey'].
  cbn [fst cond_Zopp Z.add Z.opp binary_normalize].
  apply (binary_round_opp false).
Qed.

(** ** [Duration.Hours] and the day count *)

Lemma of_int_exact p :
  Z.pos p <= 2 ^ 53 ->
  exists m e,
    of_int (Z.pos p) = S754_finite false m e
    /\ F2R (Z.pos m) e = IZR (Z.pos p).
Proof.
  intros Hp.
  destruct (of_int_faithful p) as (m & e & Hm & _ & Hf).
  - apply Rle_lt_trans with (bpow 53); [|apply bpow_lt; lia].
    rewrite bpow_IZR by lia. now apply IZR_le.
  - exists m, e. split; [exact Hm|].
    apply faithful_exact; [|exact Hf]. apply representable_int. lia.
Qed.

Lemma F2R_pred z k : 0 <= k -> F2R (z * 2 ^ k - 1) (- k) = (IZR z - bpow (- k))%R.
Proof.
  intros Hk. replace (z * 2 ^ k - 1) with (z * 2 ^ k + -1) by lia.
  rewrite F2R_add, F2R_shift by lia.
  replace (- k + k) with 0 by lia. rewrite F2R_0. unfold F2R. lra.
Qed.

Lemma bpow_neg_inv k : 0 <= k -> (bpow (- k) * IZR (2 ^ k) = 1)%R.
Proof.
  intros Hk. rewrite <- bpow_IZR, <- bpow_add by lia.
  replace (- k + k) with 0 by lia. reflexivity.
Qed.

(** The fraction of an hour, [float64(nsec)/(60*60*1e9)]. *)
Lemma frac_faithful pn :
  Z.pos pn < Hour ->
  exists m e,
    div (of_int (Z.pos pn)) (of_int (60 * 60 * 1000000000))
    = S754_finite false m e
    /\ div (of_int (Z.neg pn)) (of_int (60 * 60 * 1000000000))
       = S754_finite true m e
    /\ faithful (IZR (Z.pos pn) / IZR Hour) (F2R (Z.pos m) e).
Proof.
  intros Hn. change Hour with 3600000000000 in *.
  destruct (of_int_exact pn) as (m1 & e1 & H1 & Hv1); [lia|].
  assert (Hneg : of_int (Z.neg pn) = SFopp (of_int (Z.pos pn))).
  { apply (of_int_opp (Z.pos pn)). lia. }
  rewrite Hneg, div_opp_l, H1.
  remember (of_int (60 * 60 * 1000000000)) as c eqn:Hc.
  vm_compute in Hc. subst c.
  assert (Hcv : F2R 7372800000000000 (-11) = IZR 3600000000000).
  { change 7372800000000000 with (3600000000000 * 2 ^ 11).
    rewrite F2R_shift by lia. apply F2R_0. }
  destruct (div_pos_faithful false m1 e1 7372800000000000 (-11))
    as (m & e & Hd & _ & Hf).
  - change (Z.pos (digits2_pos 7372800000000000)) with 53.
    assert (0 < Z.pos (digits2_pos m1) + e1).
    { apply digits_of_value_lo. rewrite Hv1, bpow_0. apply IZR_le. lia. }
    assert (Z.pos (digits2_pos m1) + e1 <= 42).
    { apply digits_of_value_hi. rewrite Hv1, bpow_IZR by lia.
      apply IZR_lt. lia. }
    lia.
  - exists m, e. rewrite Hd. split; [reflexivity|]. split; [reflexivity|].
    rewrite Hv1, Hcv in Hf. exact Hf.
Qed.

Lemma representable_bpow k : -1074 <= k -> representable (bpow k).
Proof.
  intros Hk. replace (bpow k) with (F2R 1 k) by (unfold F2R; lra).
  apply representable_scaled; lia.
Qed.

Lemma bpow_m42 : (bpow (-42) * 4398046511104 = 1)%R.
Proof. exact (bpow_neg_inv 42 ltac:(lia)). Qed.

(** [d.Hours()] for a positive duration, together with its mirror image. *)
Lemma Hours_core d :
  0 < d <= 2 ^ 63 ->
  exists m e v1,
    Hours d = S754_finite false m e
    /\ Hours (- d) = S754_finite true m e
    /\ faithful (IZR (Z.rem d Hour) / IZR Hour) v1
    /\ (0 <= v1 <= 1)%R
    /\ faithful (IZR (Z.quot d Hour) + v1) (F2R (Z.pos m) e)
    /\ (bpow (-42) <= F2R (Z.pos m) e <= 2562048)%R.
Proof.
  intros Hd. unfold Hours.
  assert (HH : Hour = 3600000000000) by reflexivity.
  rewrite Z.quot_opp_l, Z.rem_opp_l by (rewrite HH; lia).
  pose proof (Z.quot_rem' d Hour) as Hqr.
  pose proof (Z.rem_bound_pos d Hour ltac:(lia) ltac:(rewrite HH; lia)) as Hn.
  pose proof (Z.quot_pos d Hour ltac:(lia) ltac:(rewrite HH; lia)) as Hh.
  set (h := Z.quot d Hour) in *. set (n := Z.rem d Hour) in *.
  assert (Hhmax : h <= 2562047) by (rewrite HH in *; lia).
  pose proof bpow_m42 as H42.
  assert (R1 : representable 1) by (apply (representable_int 1); lia).
  assert (R42 : representable (bpow (-42))) by (apply representable_bpow; lia).
  assert (Rmax : representable 2562048)
    by (apply (representable_int 2562048); lia).
  assert (R0 : representable 0) by (apply (representable_int 0); lia).
  assert (Hhr : (0 <= IZR h <= 2562047)%R)
    by (split; apply IZR_le; lia).
  destruct n as [|pn|pn] eqn:En; [| |lia].
  - (* a whole number of hours *)
    destruct h as [|ph|ph] eqn:Eh; [lia| |lia].
    destruct (of_int_exact ph) as (m & e & Hm & Hv); [lia|].
    assert (Hneg : of_int (- Z.pos ph) = SFopp (of_int (Z.pos ph)))
      by (apply of_int_opp; lia).
    rewrite Hneg, Hm. exists m, e, 0%R.
    split; [reflexivity|]. split; [reflexivity|].
    split; [unfold Rdiv; rewrite Rmult_0_l; apply faithful_refl|].
    split; [lra|]. rewrite Rplus_0_r, Hv.
    split; [apply faithful_refl|].
    assert (1 <= IZR (Z.pos ph))%R by (apply IZR_le; lia). lra.
  - destruct (frac_faithful pn) as (m2 & e2 & Hp & Hm & Hf); [lia|].
    change (- Z.pos pn) with (Z.neg pn). rewrite Hp, Hm.
    set (v1 := F2R (Z.pos m2) e2) in *.
    assert (Hnr : (1 <= IZR (Z.pos pn) <= 3600000000000)%R).
    { split; apply IZR_le; rewrite HH in *; lia. }
    assert (Hv1 : (bpow (-42) <= v1 <= 1)%R).
    { destruct Hf as [Hlo Hhi]. rewrite HH in *. split.
      - apply Hlo; [exact R42|]. lra.
      - apply Hhi; [exact R1|]. lra. }
    destruct h as [|ph|ph] eqn:Eh; [| |lia].
    + (* less than an hour *)
      exists m2, e2, v1.
      split; [reflexivity|]. split; [reflexivity|].
      split; [exact Hf|]. split; [lra|]. rewrite Rplus_0_l.
      split; [apply faithful_refl|]. fold v1. lra.
    + destruct (of_int_exact ph) as (m1 & e1 & Hm1 & Hv); [lia|].
      assert (Hneg : of_int (- Z.pos ph) = SFopp (of_int (Z.pos ph)))
        by (apply of_int_opp; lia).
      rewrite Hneg, Hm1. cbn [SFopp negb].
      rewrite add_opp_pos.
      assert (1 <= IZR (Z.pos ph))%R by (apply IZR_le; lia).
      destruct (add_pos_faithful m1 e1 m2 e2) as (m & e & Ha & _ & Hfa).
      * fold v1. rewrite Hv. split.
        -- apply Rle_trans with (bpow 0); [apply bpow_le; lia|].
           rewrite bpow_0. lra.
        -- apply Rlt_le_trans with (bpow 22); [|apply bpow_le; lia].
           rewrite bpow_IZR by lia. change (2 ^ 22) with 4194304. lra.
      * rewrite Ha. exists m, e, v1.
        split; [reflexivity|]. split; [reflexivity|].
        split; [exact Hf|]. split; [lra|].
        fold v1 in Hfa. rewrite Hv in Hfa. split; [exact Hfa|].
        destruct Hfa as [Hlo Hhi]. split.
        -- apply Hlo; [exact R42|]. lra.
        -- apply Hhi; [exact Rmax|]. lra.
Qed.

(** [d.Hours() / 24] for a positive duration, and its mirror image: a
    finite, normalised float reached by three roundings. *)
Lemma quotient_core d :
  0 < d <= 2 ^ 63 ->
  exists v1 v m3 e3,
    faithful (IZR (Z.rem d Hour) / IZR Hour) v1
    /\ (0 <= v1 <= 1)%R
    /\ faithful (IZR (Z.quot d Hour) + v1) v
    /\ faithful (v / 24) (F2R (Z.pos m3) e3)
    /\ (F2R (Z.pos m3) e3 <= 131072)%R
    /\ div (Hours d) (of_int 24) = S754_finite false m3 e3
    /\ div (Hours (- d)) (of_int 24) = S754_finite true m3 e3.
Proof.
  intros Hd.
  destruct (Hours_core d Hd) as (m & e & v1 & Hp & Hn & Hf1 & Hv1 & Hf & Hv).
  rewrite Hp, Hn.
  change (S754_finite true m e) with (SFopp (S754_finite false m e)).
  rewrite div_opp_l.
  remember (of_int 24) as c eqn:Hc. vm_compute in Hc. subst c.
  assert (Hcv : F2R 6755399441055744 (-48) = 24%R).
  { change 6755399441055744 with (24 * 2 ^ 48).
    rewrite F2R_shift by lia. apply F2R_0. }
  destruct (div_pos_faithful false m e 6755399441055744 (-48))
    as (m3 & e3 & Hd3 & _ & Hf3).
  - change (Z.pos (digits2_pos 6755399441055744)) with 53.
    assert (-42 < Z.pos (digits2_pos m) + e)
      by (apply digits_of_value_lo; lra).
    assert (Z.pos (digits2_pos m) + e <= 22).
    { apply digits_of_value_hi. rewrite bpow_IZR by lia.
      change (2 ^ 22) with 4194304. lra. }
    lia.
  - rewrite Hd3. cbn [SFopp negb]. rewrite Hcv in Hf3.
    assert (Hv2 : (F2R (Z.pos m3) e3 <= 131072)%R).
    { destruct Hf3 as [_ Hhi]. apply Hhi; [|lra].
      apply (representable_int 131072). lia. }
    exists v1, (F2R (Z.pos m) e), m3, e3. auto 10.
Qed.

(** [int(d.Hours() / 24)] for a positive duration: three roundings and a
    floor. *)
Lemma wholeDays_core d :
  0 < d <= 2 ^ 63 ->
  exists v1 v v2,
    faithful (IZR (Z.rem d Hour) / IZR Hour) v1
    /\ (0 <= v1 <= 1)%R
    /\ faithful (IZR (Z.quot d Hour) + v1) v
    /\ faithful (v / 24) v2
    /\ 0 <= wholeDays d
    /\ (IZR (wholeDays d) <= v2 < IZR (wholeDays d) + 1)%R
    /\ wholeDays (- d) = - wholeDays d.
Proof.
  intros Hd. unfold wholeDays.
  destruct (quotient_core d Hd)
    as (v1 & v & m3 & e3 & Hf1 & Hv1 & Hf & Hf3 & Hv2 & Hp & Hn).
  rewrite Hp, Hn.
  assert (Hlt : (F2R (Z.pos m3) e3 < bpow 63)%R).
  { rewrite bpow_IZR by lia. change (2 ^ 63) with 9223372036854775808. lra. }
  destruct (to_int_finite false m3 e3 Hlt) as [Ht _].
  destruct (to_int_finite true m3 e3 Hlt) as [Ht' _].
  rewrite Ht, Ht'. cbn [cond_Zopp].
  destruct (magnitude_floor m3 e3) as [H0 Hfl].
  exists v1, v, (F2R (Z.pos m3) e3). auto 10.
Qed.

(** Neither a NaN nor an infinity reaches the conversion to [int]. *)
Lemma quotient_finite d :
  - 2 ^ 63 <= d <= 2 ^ 63 ->
  match div (Hours d) (of_int 24) with
  | S754_zero _ | S754_finite _ _ _ => True
  | _ => False
  end.
Proof.
  intros Hd. destruct (Z.lt_trichotomy d 0) as [Hneg | [-> | Hpos]].
  - destruct (quotient_core (- d)) as (v1 & v & m & e & H); [lia|].
    rewrite Z.opp_involutive in H.
    destruct H as (_ & _ & _ & _ & _ & _ & ->). exact I.
  - exact I.
  - destruct (quotient_core d) as (v1 & v & m & e & H); [lia|].
    destruct H as (_ & _ & _ & _ & _ & -> & _). exact I.
Qed.

Lemma quot_Day d : Z.quot d Day = Z.quot (Z.quot d Hour) 24.
Proof.
  unfold Day. rewrite (Z.mul_comm 24 Hour).
  symmetry. apply Z.quot_quot; [discriminate | lia].
Qed.

Lemma bpow_m31 : (bpow (-31) * 2147483648 = 1)%R.
Proof. exact (bpow_neg_inv 31 ltac:(lia)). Qed.

Lemma bpow_m36 : (bpow (-36) * 68719476736 = 1)%R.
Proof. exact (bpow_neg_inv 36 ltac:(lia)). Qed.

Lemma bpow_m47 : (bpow (-47) * 140737488355328 = 1)%R.
Proof. exact (bpow_neg_inv 47 ltac:(lia)). Qed.

Lemma representable_pred z k :
  0 < z -> z * 2 ^ k <= 2 ^ 53 -> 0 <= k <= 1074 ->
  representable (IZR z - bpow (- k)).
Proof.
  intros Hz Hzk Hk. rewrite <- F2R_pred by lia.
  apply representable_scaled; [|lia].
  assert (0 < 2 ^ k) by (apply Z.pow_pos_nonneg; lia). nia.
Qed.

(** Positive durations: the result is the whole number of days, or one
    more when the rounding of the last hour reaches the next day. *)
Lemma wholeDays_pos d :
  0 < d <= 2 ^ 63 ->
  Z.quot d Day <= wholeDays d <= Z.quot d Day + 1
  /\ (Z.rem d Hour <= Hour - 1677 -> wholeDays d = Z.quot d Day)
  /\ (d < Day -> wholeDays d = 0)
  /\ wholeDays (- d) = - wholeDays d.
Proof.
  intros Hd.
  destruct (wholeDays_core d Hd)
    as (v1 & v & v2 & Hf1 & Hv1 & Hf & Hf2 & Ht0 & Ht & Hneg).
  assert (HH : Hour = 3600000000000) by reflexivity.
  pose proof (Z.quot_rem' d Hour) as Hqr.
  pose proof (Z.rem_bound_pos d Hour ltac:(lia) ltac:(rewrite HH; lia)) as Hn.
  pose proof (Z.quot_pos d Hour ltac:(lia) ltac:(rewrite HH; lia)) as Hh.
  rewrite quot_Day.
  set (h := Z.quot d Hour) in *. set (n := Z.rem d Hour) in *.
  set (t := wholeDays d) in *.
  assert (Hhmax : h <= 2562047) by (rewrite HH in *; lia).
  pose proof (Z.quot_rem' h 24) as Hq.
  pose proof (Z.rem_bound_pos h 24 ltac:(lia) ltac:(lia)) as Hr.
  pose proof (Z.quot_pos h 24 ltac:(lia) ltac:(lia)) as Hq0.
  set (q := Z.quot h 24) in *. set (r := Z.rem h 24) in *.
  assert (Hqmax : q <= 106751) by lia.
  assert (Hhq : (IZR h = 24 * IZR q + IZR r)%R).
  { rewrite Hq, plus_IZR, mult_IZR. reflexivity. }
  assert (Hrr : (0 <= IZR r <= 23)%R) by (split; apply IZR_le; lia).
  assert (Hqr' : (0 <= IZR q <= 106751)%R) by (split; apply IZR_le; lia).
  assert (Hnr : (0 <= IZR n)%R) by (apply IZR_le; lia).
  destruct Hf as [Hlo Hhi]. destruct Hf2 as [Hlo2 Hhi2].
  destruct Hf1 as [Hlo1 Hhi1].
  assert (Hlow : q <= t).
  { assert (IZR (24 * q) <= v)%R.
    { apply Hlo; [apply representable_int; lia|]. rewrite mult_IZR. lra. }
    assert (IZR q <= v2)%R.
    { apply Hlo2; [apply representable_int; lia|].
      rewrite mult_IZR in *. lra. }
    assert (q < t + 1); [|lia]. apply lt_IZR. rewrite plus_IZR. lra. }
  assert (Hup : t <= q + 1).
  { assert (v <= IZR (24 * (q + 1)))%R.
    { apply Hhi; [apply representable_int; lia|].
      rewrite mult_IZR, plus_IZR. lra. }
    assert (v2 <= IZR (q + 1))%R.
    { apply Hhi2; [apply representable_int; lia|].
      rewrite ?mult_IZR, ?plus_IZR in *. lra. }
    apply le_IZR. rewrite ?plus_IZR in *. lra. }
  split; [lia|]. split; [|split; [|exact Hneg]].
  - (* away from the end of the hour *)
    intros Hnsmall. assert (t <= q); [|lia].
    pose proof bpow_m31 as H31. pose proof bpow_m36 as H36.
    assert (Hn' : (IZR n <= 3600000000000 - 1677)%R).
    { apply IZR_le in Hnsmall. rewrite HH, minus_IZR in Hnsmall. exact Hnsmall. }
    assert (Hv1' : (v1 <= 1 - bpow (-31))%R).
    { apply Hhi1.
      - apply (representable_pred 1 31); lia.
      - rewrite HH. lra. }
    assert (Hv' : (v <= IZR (24 * (q + 1)) - bpow (-31))%R).
    { apply Hhi.
      - apply (representable_pred (24 * (q + 1)) 31); lia.
      - rewrite mult_IZR, plus_IZR. lra. }
    assert (Hv2' : (v2 <= IZR (q + 1) - bpow (-36))%R).
    { apply Hhi2.
      - apply (representable_pred (q + 1) 36); lia.
      - rewrite ?mult_IZR, ?plus_IZR in *. lra. }
    assert (t < q + 1); [|lia]. apply lt_IZR.
    rewrite ?plus_IZR in *. lra.
  - (* the first day *)
    intros Hday. unfold Day in Hday. rewrite HH in *.
    assert (Hqz : q = 0) by lia.
    assert (Hqzr : IZR q = 0%R) by (now rewrite Hqz).
    assert (t <= 0); [|lia].
    pose proof bpow_m42 as H42. pose proof bpow_m47 as H47.
    assert (Hn' : (IZR n <= 3600000000000 - 1)%R).
    { assert (Hn1 : n <= 3600000000000 - 1) by lia. apply IZR_le in Hn1.
      rewrite minus_IZR in Hn1. exact Hn1. }
    assert (Hv1' : (v1 <= 1 - bpow (-42))%R).
    { apply Hhi1.
      - apply (representable_pred 1 42); lia.
      - lra. }
    assert (Hv' : (v <= 24 - bpow (-42))%R).
    { apply Hhi.
      - apply (representable_pred 24 42); lia.
      - lra. }
    assert (Hv2' : (v2 <= 1 - bpow (-47))%R).
    { apply Hhi2.
      - apply (representable_pred 1 47); lia.
      - lra. }
    assert (t < 1); [|lia]. apply lt_IZR. lra.
Qed.
(** ** The chain fetcher *)

Section Fetcher.

Variable now : Time.

Lemma fold_append_statuses (certs : list Certificate) :
  forall acc,
    fold_left (fun chain cert => chain ++ [certStatus now cert]) certs acc
    = acc ++ map (certStatus now) certs.
Proof.
  induction certs as [|cert rest IH]; intros acc; simpl.
  - now rewrite app_nil_r.
  - rewrite IH, <- app_assoc. reflexivity.
Qed.

Lemma appendStatuses_map (certs : list Certificate) :
  appendStatuses now certs = map (certStatus now) certs.
Proof. unfold appendStatuses. now rewrite fold_append_statuses. Qed.

End Fetcher.

Lemma FetchChain_connected w address certs :
  net w address = Connected certs ->
  FetchChain w address
  = ((map (certStatus (wallclock w (ticks w))) certs, None),
     {| net := net w; wallclock := wallclock w; ticks := S (ticks w) |}).
Proof.
  intros H. unfold FetchChain. rewrite H. cbn. now rewrite appendStatuses_map.
Qed.

Lemma FetchChain_failed w address cause :
  net w address = DialError cause ->
  FetchChain w address
  = (([], Some ("Could not establish connection to outbound address "
                  ++ address ++ " - " ++ cause)%string), w).
Proof. intros H. unfold FetchChain. now rewrite H. Qed.

(** A fetch that returns no error went through a connection. *)
Lemma FetchChain_ok_inv w address chain w' :
  FetchChain w address = ((chain, None), w') ->
  exists certs,
    net w address = Connected certs
    /\ chain = map (certStatus (wallclock w (ticks w))) certs
    /\ ticks w' = S (ticks w).
Proof.
  destruct (net w address) as [certs|cause] eqn:E.
  - rewrite (FetchChain_connected _ _ _ E). intros H. inversion H; subst.
    exists certs. auto.
  - rewrite (FetchChain_failed _ _ _ E). discriminate.
Qed.

Lemma FetchChain_err_inv w address chain e w' :
  FetchChain w address = ((chain, Some e), w') ->
  exists cause,
    net w address = DialError cause
    /\ chain = []
    /\ w' = w
    /\ e = ("Could not establish connection to outbound address "
              ++ address ++ " - " ++ cause)%string.
Proof.
  destruct (net w address) as [certs|cause] eqn:E.
  - rewrite (FetchChain_connected _ _ _ E). discriminate.
  - rewrite (FetchChain_failed _ _ _ E). intros H. inversion H; subst.
    exists cause. auto.
Qed.

(** ** The three folds *)

Lemma anyExpiredNow_spec chain :
  anyExpiredNow chain = true <-> exists c, In c chain /\ ExpiredNow c = true.
Proof.
  induction chain as [|c rest IH]; simpl.
  - split; [discriminate | intros (c & [] & _)].
  - destruct (ExpiredNow c) eqn:E.
    + split; auto. intros _. exists c. auto.
    + rewrite IH. split.
      * intros (c' & Hin & Hc'). exists c'. auto.
      * intros (c' & [-> | Hin] & Hc'); [congruence | exists c'; auto].
Qed.

Lemma anyExpiresWithin_spec days chain :
  anyExpiresWithin days chain = true
  <-> exists c, In c chain /\ ExpiresInDays c < days.
Proof.
  induction chain as [|c rest IH]; simpl.
  - split; [discriminate | intros (c & [] & _)].
  - destruct (Z.ltb_spec (ExpiresInDays c) days) as [Hlt | Hge].
    + split; auto. intros _. exists c. auto.
    + rewrite IH. split.
      * intros (c' & Hin & Hc'). exists c'. auto.
      * intros (c' & [-> | Hin] & Hc'); [lia | exists c'; auto].
Qed.

Lemma anyExpiresBefore_spec t chain :
  anyExpiresBefore t chain = true
  <-> exists c, In c chain /\ ExpirationDate c < t.
Proof.
  induction chain as [|c rest IH]; simpl; unfold Before.
  - split; [discriminate | intros (c & [] & _)].
  - destruct (Z.ltb_spec (ExpirationDate c) t) as [Hlt | Hge].
    + split; auto. intros _. exists c. auto.
    + rewrite IH. split.
      * intros (c' & Hin & Hc'). exists c'. auto.
      * intros (c' & [-> | Hin] & Hc'); [lia | exists c'; auto].
Qed.

Lemma Expired_ok w address chain w' :
  FetchChain w address = ((chain, None), w') ->
  Expired w address = ((anyExpiredNow chain, None), w').
Proof. intros H. unfold Expired. now rewrite H. Qed.

Lemma ExpiresWithinDays_ok w address days chain w' :
  FetchChain w address = ((chain, None), w') ->
  ExpiresWithinDays w address days = ((anyExpiresWithin days chain, None), w').
Proof. intros H. unfold ExpiresWithinDays. now rewrite H. Qed.

Lemma ExpiresBeforeDate_ok w address t chain w' :
  FetchChain w address = ((chain, None), w') ->
  ExpiresBeforeDate w address t = ((anyExpiresBefore t chain, None), w').
Proof. intros H. unfold ExpiresBeforeDate. now rewrite H. Qed.

(** ** Strings *)

Lemma Contains_middle pre sub post : Contains (pre ++ sub ++ post) sub.
Proof. now exists pre, post. Qed.

Lemma Contains_suffix pre sub : Contains (pre ++ sub) sub.
Proof.
  exists pre, EmptyString.
  replace (sub ++ "")%string with sub; [reflexivity|].
  induction sub; simpl; congruence.
Qed.

Lemma string_app_assoc (a b c : string) :
  ((a ++ b) ++ c = a ++ b ++ c)%string.
Proof. induction a; simpl; congruence. Qed.

(** ** [Time.Sub] *)

Lemma wrap64_small z : minInt64 <= z <= maxInt64 -> wrap64 z = z.
Proof.
  unfold wrap64, minInt64, maxInt64. intros H.
  rewrite Z.mod_small; lia.
Qed.

Lemma wrap64_range z : minInt64 <= wrap64 z <= maxInt64.
Proof.
  unfold wrap64, minInt64, maxInt64.
  pose proof (Z.mod_pos_bound (z + 2 ^ 63) (2 ^ 64) ltac:(lia)). lia.
Qed.

(** [Sub] is the true difference clamped to [int64]. *)
Lemma Sub_saturates t u :
  Sub t u = Z.max minDuration (Z.min maxDuration (t - u)).
Proof.
  unfold Sub, Before, minDuration, maxDuration.
  pose proof (wrap64_range (t - u)) as Hr.
  destruct (Z.eqb_spec (u + wrap64 (t - u)) t) as [He | Hne].
  - assert (wrap64 (t - u) = t - u) as -> by lia.
    assert (Hd : minInt64 <= t - u <= maxInt64) by lia. lia.
  - assert (Hout : ~ (minInt64 <= t - u <= maxInt64)).
    { intros Hin. apply Hne. rewrite wrap64_small; lia. }
    unfold minInt64, maxInt64 in *.
    destruct (Z.ltb_spec t u); lia.
Qed.

Lemma Sub_exact t u :
  minInt64 <= t - u <= maxInt64 -> Sub t u = t - u.
Proof.
  intros H. rewrite Sub_saturates. unfold minDuration, maxDuration. lia.
Qed.

Lemma Sub_range t u : minInt64 <= Sub t u <= maxInt64.
Proof.
  rewrite Sub_saturates. unfold minDuration, maxDuration, minInt64, maxInt64.
  lia.
Qed.

Lemma Sub_sign t u :
  (t < u -> Sub t u < 0) /\ (t = u -> Sub t u = 0) /\ (u < t -> 0 < Sub t u).
Proof.
  rewrite Sub_saturates. unfold minDuration, maxDuration, minInt64, maxInt64.
  lia.
Qed.

Lemma string_length_app (a b : string) :
  String.length (a ++ b) = (String.length a + String.length b)%nat.
Proof. induction a; simpl; congruence. Qed.

Lemma string_app_inv_tail (a b e : string) :
  (a ++ e = b ++ e)%string -> a = b.
Proof.
  revert b. induction a as [|x a IH]; intros [|y b] H; simpl in H.
  - reflexivity.
  - apply (f_equal String.length) in H. simpl in H.
    rewrite string_length_app in H. lia.
  - apply (f_equal String.length) in H. simpl in H.
    rewrite string_length_app in H. lia.
  - injection H as -> H. f_equal. now apply IH.
Qed.

(** ** The day count of a record *)

Lemma Hour_value : Hour = 3600000000000.
Proof. reflexivity. Qed.

Lemma Day_value : Day = 86400000000000.
Proof. reflexivity. Qed.

Lemma wholeDays_0 : wholeDays 0 = 0.
Proof. reflexivity. Qed.

(** The float arithmetic of [int(d.Hours() / 24)], for every [int64]
    duration: the quotient by a day truncated toward zero, possibly one
    further from zero when [d] is within 1676ns of completing an hour. *)
Lemma wholeDays_spec d :
  minInt64 <= d <= maxInt64 ->
  (0 <= d -> Z.quot d Day <= wholeDays d <= Z.quot d Day + 1)
  /\ (d <= 0 -> Z.quot d Day - 1 <= wholeDays d <= Z.quot d Day)
  /\ (Z.abs (Z.rem d Hour) <= Hour - 1677 -> wholeDays d = Z.quot d Day)
  /\ (- Day < d < Day -> wholeDays d = 0).
Proof.
  unfold minInt64, maxInt64. intros Hd.
  destruct (Z.lt_trichotomy d 0) as [Hneg | [-> | Hpos]].
  - destruct (wholeDays_pos (- d)) as (Hb & He & Hf & Ho); [lia|].
    rewrite Z.opp_involutive in Ho.
    rewrite Z.quot_opp_l in * by (rewrite Day_value; lia).
    rewrite Z.rem_opp_l in * by (rewrite Hour_value; lia).
    rewrite Ho. repeat split; intros; lia.
  - rewrite wholeDays_0. change (Z.quot 0 Day) with 0.
    repeat split; intros; lia.
  - destruct (wholeDays_pos d) as (Hb & He & Hf & Ho); [lia|].
    repeat split; intros; lia.
Qed.

Lemma quot_Day_nonpos d : d <= 0 -> Z.quot d Day <= 0.
Proof.
  intros Hd. rewrite <- (Z.opp_involutive d).
  rewrite Z.quot_opp_l by (rewrite Day_value; lia).
  pose proof (Z.quot_pos (- d) Day ltac:(lia) ltac:(rewrite Day_value; lia)).
  lia.
Qed.

Lemma quot_Day_negative d : d <= - Day -> Z.quot d Day <= -1.
Proof.
  intros Hd. rewrite <- (Z.opp_involutive d).
  rewrite Z.quot_opp_l by (rewrite Day_value; lia).
  assert (Z.quot Day Day <= Z.quot (- d) Day).
  { apply Z.quot_le_mono; rewrite Day_value in *; lia. }
  rewrite Z.quot_same in * by (rewrite Day_value; lia). lia.
Qed.

(** What [int(cert.NotAfter.Sub(now).Hours() / 24)] amounts to. *)
Lemma daysUntil_spec notAfter now :
  let d := Z.max minDuration (Z.min maxDuration (notAfter - now)) in
  let q := Z.quot d Day in
  daysUntil notAfter now = wholeDays d
  /\ (0 <= d -> q <= daysUntil notAfter now <= q + 1)
  /\ (d <= 0 -> q - 1 <= daysUntil notAfter now <= q)
  /\ (Z.abs (Z.rem d Hour) <= Hour - 1677 -> daysUntil notAfter now = q)
  /\ (notAfter < now -> daysUntil notAfter now <= 0)
  /\ (now - Day < notAfter < now + Day -> daysUntil notAfter now = 0)
  /\ (notAfter <= now - Day -> daysUntil notAfter now < 0).
Proof.
  intros d q. unfold daysUntil. rewrite Sub_saturates. fold d.
  assert (Hd : minInt64 <= d <= maxInt64).
  { unfold d, minDuration, maxDuration, minInt64, maxInt64. lia. }
  destruct (wholeDays_spec d Hd) as (Hp & Hn & He & Hz). fold q in Hp, Hn, He.
  split; [reflexivity|]. split; [exact Hp|]. split; [exact Hn|].
  split; [exact He|].
  unfold d, minDuration, maxDuration, minInt64, maxInt64 in *.
  rewrite Day_value in *. repeat split.
  - intros Hlt. assert (Hd0 : d <= 0) by (unfold d, minDuration, maxDuration, minInt64, maxInt64; lia).
    pose proof (quot_Day_nonpos d Hd0). fold q in H.
    unfold d, minDuration, maxDuration, minInt64, maxInt64 in *. lia.
  - intros Hnear. apply Hz. lia.
  - intros Hold.
    assert (Hd1 : d <= - Day).
    { rewrite Day_value. unfold d, minDuration, maxDuration, minInt64, maxInt64. lia. }
    pose proof (quot_Day_negative d Hd1). fold q in H.
    assert (Hd0 : d <= 0) by (rewrite Day_value in Hd1; lia).
    unfold d, minDuration, maxDuration, minInt64, maxInt64 in *. lia.
Qed.

Lemma daysUntil_offset now d :
  minInt64 <= d <= maxInt64 -> daysUntil (now + d) now = wholeDays d.
Proof.
  intros Hd. unfold daysUntil. rewrite Sub_exact; f_equal; lia.
Qed.

(** The rounding to the next hour does happen: one nanosecond short of 171
    days counts as 171 days. *)
Lemma wholeDays_rounds_up :
  wholeDays (171 * Day - 1) = 171 /\ Z.quot (171 * Day - 1) Day = 170.
Proof. split; reflexivity. Qed.

(** A far expiration saturates the duration at about 292 years. *)
Lemma daysUntil_saturates now notAfter :
  maxDuration <= notAfter - now -> daysUntil notAfter now = 106751.
Proof.
  intros H. unfold daysUntil. rewrite Sub_saturates.
  replace (Z.max minDuration (Z.min maxDuration (notAfter - now)))
    with maxDuration
    by (unfold minDuration, maxDuration, minInt64, maxInt64 in *; lia).
  reflexivity.
Qed.

(** ** Records of a fetched chain *)

Lemma in_fetched_chain w address chain w' c :
  FetchChain w address = ((chain, None), w') ->
  In c chain ->
  exists cert, c = certStatus (wallclock w (ticks w)) cert.
Proof.
  intros H Hin. destruct (FetchChain_ok_inv _ _ _ _ H) as (certs & _ & -> & _).
  apply in_map_iff in Hin. destruct Hin as (cert & <- & _). now exists cert.
Qed.

Lemma ExpiredNow_certStatus now cert :
  ExpiredNow (certStatus now cert) = true <-> NotAfter cert < now.
Proof.
  simpl. unfold Before. destruct (Z.ltb_spec (NotAfter cert) now); split;
    intros; (lia || congruence || reflexivity).
Qed.

Lemma anyExpiresWithin_existsb days chain :
  anyExpiresWithin days chain
  = existsb (fun c => ExpiresInDays c <? days) chain.
Proof.
  induction chain as [|c rest IH]; simpl; [reflexivity|].
  rewrite IH. now destruct (ExpiresInDays c <? days).
Qed.

Lemma existsb_map {A B} (f : B -> bool) (g : A -> B) l :
  existsb f (map g l) = existsb (fun a => f (g a)) l.
Proof. induction l as [|a l IH]; simpl; congruence. Qed.

Lemma anyExpiresBefore_mono t0 t1 chain :
  t0 < t1 ->
  anyExpiresBefore t0 chain = true -> anyExpiresBefore t1 chain = true.
Proof.
  intros Hlt H0. apply anyExpiresBefore_spec in H0.
  destruct H0 as (c & Hin & Hc). apply anyExpiresBefore_spec.
  exists c. split; [exact Hin | lia].
Qed.

(** * The claims *)

(** C1, as the specification states it, fails: the certificate of
    [sampleWorld] that expired one hour before the observation instant gets
    [ExpiresInDays = 0], where the floor of -1/24 is -1 and the claim
    promises a negative count. *)
Lemma C1_floor_counterexample :
  exists c,
    In c (fst (fst (FetchChain sampleWorld "example.com:443")))
    /\ ExpirationDate c < wallclock sampleWorld (ticks sampleWorld)
    /\ ExpiresInDays c = 0
    /\ floorDays (ExpirationDate c) (wallclock sampleWorld (ticks sampleWorld))
       = -1.
Proof.
  exists (certStatus sampleNow staleCert).
  split; [right; left; reflexivity|].
  split; [reflexivity|]. split; reflexivity.
Qed.

(** C1 (amended): for every certificate in a fetched chain,
    [ExpiresInDays] is [int(d.Hours() / 24)] where [d] is the time from the
    shared observation instant to the expiration instant, saturated to
    [int64] nanoseconds.  The conversion truncates toward zero: with [q] the
    quotient of [d] by 24 hours truncated toward zero, the count is [q] or
    the next integer away from zero, and it is exactly [q] unless [d] is
    within 1676ns of completing an hour.  It is at most 0 when the
    certificate is already expired, 0 when it expired (or expires) less than
    24 hours from the observation instant, and negative once it has been
    expired for 24 hours. *)
Theorem C1_expires_in_days_truncates w address chain w' :
  FetchChain w address = ((chain, None), w') ->
  let now := wallclock w (ticks w) in
  Forall (fun c =>
    let d := Z.max minDuration (Z.min maxDuration (ExpirationDate c - now)) in
    let q := Z.quot d Day in
    ExpiresInDays c = wholeDays d
    /\ (0 <= d -> q <= ExpiresInDays c <= q + 1)
    /\ (d <= 0 -> q - 1 <= ExpiresInDays c <= q)
    /\ (Z.abs (Z.rem d Hour) <= Hour - 1677 -> ExpiresInDays c = q)
    /\ (ExpirationDate c < now -> ExpiresInDays c <= 0)
    /\ (now - Day < ExpirationDate c < now + Day -> ExpiresInDays c = 0)
    /\ (ExpirationDate c <= now - Day -> ExpiresInDays c < 0)) chain.
Proof.
  intros H now. apply Forall_forall. intros c Hin.
  destruct (in_fetched_chain _ _ _ _ _ H Hin) as (cert & ->).
  exact (daysUntil_spec (NotAfter cert) now).
Qed.

Lemma C1_expires_in_days_truncates_witness :
  FetchChain sampleWorld "example.com:443"
  = ((sampleChain, None), sampleWorldAfter)
  /\ Forall (fun c =>
       let d := Z.max minDuration
                  (Z.min maxDuration (ExpirationDate c - sampleNow)) in
       let q := Z.quot d Day in
       ExpiresInDays c = wholeDays d
       /\ (0 <= d -> q <= ExpiresInDays c <= q + 1)
       /\ (d <= 0 -> q - 1 <= ExpiresInDays c <= q)
       /\ (Z.abs (Z.rem d Hour) <= Hour - 1677 -> ExpiresInDays c = q)
       /\ (ExpirationDate c < sampleNow -> ExpiresInDays c <= 0)
       /\ (sampleNow - Day < ExpirationDate c < sampleNow + Day ->
           ExpiresInDays c = 0)
       /\ (ExpirationDate c <= sampleNow - Day -> ExpiresInDays c < 0))
     sampleChain.
Proof.
  assert (H : FetchChain sampleWorld "example.com:443"
              = ((sampleChain, None), sampleWorldAfter)) by reflexivity.
  split; [exact H|].
  exact (C1_expires_in_days_truncates _ _ _ _ H).
Defined.

(** C2: for every record produced by [FetchChain], [ExpiredNow] is true
    exactly when [ExpirationDate] is strictly before the observation
    instant of that call, which is read once, and [ExpiresInDays] is
    computed from that same instant. *)
Theorem C2_expired_now_iff_before_observation w address chain w' :
  FetchChain w address = ((chain, None), w') ->
  let now := wallclock w (ticks w) in
  ticks w' = S (ticks w)
  /\ Forall (fun c =>
       (ExpiredNow c = true <-> ExpirationDate c < now)
       /\ ExpiresInDays c = daysUntil (ExpirationDate c) now) chain.
Proof.
  intros H now.
  destruct (FetchChain_ok_inv _ _ _ _ H) as (certs & _ & _ & Hticks).
  split; [exact Hticks|].
  apply Forall_forall. intros c Hin.
  destruct (in_fetched_chain _ _ _ _ _ H Hin) as (cert & ->).
  split; [apply ExpiredNow_certStatus | reflexivity].
Qed.

Lemma C2_expired_now_iff_before_observation_witness :
  FetchChain sampleWorld "example.com:443"
  = ((sampleChain, None), sampleWorldAfter)
  /\ ticks sampleWorldAfter = 1%nat
  /\ Forall (fun c =>
       (ExpiredNow c = true <-> ExpirationDate c < sampleNow)
       /\ ExpiresInDays c = daysUntil (ExpirationDate c) sampleNow)
     sampleChain.
Proof.
  assert (H : FetchChain sampleWorld "example.com:443"
              = ((sampleChain, None), sampleWorldAfter)) by reflexivity.
  split; [exact H|].
  exact (C2_expired_now_iff_before_observation _ _ _ _ H).
Defined.

(** C3: over the chain of a successful fetch each of the three queries
    returns true exactly when at least one certificate of the chain
    satisfies its predicate, with a nil error; over an empty chain all three
    return false. *)
Theorem C3_queries_any_match w address chain w' days t :
  FetchChain w address = ((chain, None), w') ->
  (fst (fst (Expired w address)) = true
   <-> exists c, In c chain /\ ExpiredNow c = true)
  /\ (fst (fst (ExpiresWithinDays w address days)) = true
      <-> exists c, In c chain /\ ExpiresInDays c < days)
  /\ (fst (fst (ExpiresBeforeDate w address t)) = true
      <-> exists c, In c chain /\ ExpirationDate c < t)
  /\ snd (fst (Expired w address)) = None
  /\ snd (fst (ExpiresWithinDays w address days)) = None
  /\ snd (fst (ExpiresBeforeDate w address t)) = None
  /\ (chain = [] ->
      fst (fst (Expired w address)) = false
      /\ fst (fst (ExpiresWithinDays w address days)) = false
      /\ fst (fst (ExpiresBeforeDate w address t)) = false).
Proof.
  intros H.
  rewrite (Expired_ok _ _ _ _ H), (ExpiresWithinDays_ok _ _ days _ _ H),
    (ExpiresBeforeDate_ok _ _ t _ _ H). cbn [fst snd].
  split; [apply anyExpiredNow_spec|].
  split; [apply anyExpiresWithin_spec|].
  split; [apply anyExpiresBefore_spec|].
  repeat (split; [reflexivity|]).
  intros ->. auto.
Qed.

Lemma C3_queries_any_match_witness :
  FetchChain sampleWorld "example.com:443"
  = ((sampleChain, None), sampleWorldAfter)
  /\ (fst (fst (Expired sampleWorld "example.com:443")) = true
      <-> exists c, In c sampleChain /\ ExpiredNow c = true)
  /\ (fst (fst (ExpiresWithinDays sampleWorld "example.com:443" 30)) = true
      <-> exists c, In c sampleChain /\ ExpiresInDays c < 30)
  /\ (fst (fst (ExpiresBeforeDate sampleWorld "example.com:443" sampleNow))
      = true
      <-> exists c, In c sampleChain /\ ExpirationDate c < sampleNow).
Proof.
  assert (H : FetchChain sampleWorld "example.com:443"
              = ((sampleChain, None), sampleWorldAfter)) by reflexivity.
  split; [exact H|].
  destruct (C3_queries_any_match _ _ _ _ 30 sampleNow H)
    as (H1 & H2 & H3 & _).
  exact (conj H1 (conj H2 H3)).
Defined.

(** C4, as the specification states it, fails: when the fetch fails the
    three queries return one and the same error, so the context that wraps
    the fetch error is not specific to the query. *)
Lemma C4_context_is_shared_counterexample :
  ~ QuerySpecificContext sampleWorld "iamateapot:418" 30 sampleNow.
Proof.
  intros (c1 & c2 & c3 & e & He & H1 & H2 & _ & N12 & _).
  apply N12. apply (string_app_inv_tail c1 c2 e).
  cbn in H1, H2. injection H1 as H1. injection H2 as H2. congruence.
Qed.

(** C4 (amended): whenever [FetchChain] fails with error [e], each of the
    three queries returns the boolean true together with the non-nil error
    made of the one context message ["Error Fetching Certificate Chain - "],
    the same for all three queries, followed by [e]. *)
Theorem C4_queries_wrap_fetch_error w address chain e w' days t :
  FetchChain w address = ((chain, Some e), w') ->
  let wrapped := ("Error Fetching Certificate Chain - " ++ e)%string in
  Expired w address = ((true, Some wrapped), w')
  /\ ExpiresWithinDays w address days = ((true, Some wrapped), w')
  /\ ExpiresBeforeDate w address t = ((true, Some wrapped), w').
Proof.
  intros H wrapped. unfold Expired, ExpiresWithinDays, ExpiresBeforeDate.
  rewrite H. auto.
Qed.

Lemma C4_queries_wrap_fetch_error_witness :
  FetchChain sampleWorld "iamateapot:418"
  = (([], Some sampleFailure), sampleWorld)
  /\ Expired sampleWorld "iamateapot:418"
     = ((true, Some ("Error Fetching Certificate Chain - "
                       ++ sampleFailure)%string), sampleWorld)
  /\ ExpiresWithinDays sampleWorld "iamateapot:418" 30
     = ((true, Some ("Error Fetching Certificate Chain - "
                       ++ sampleFailure)%string), sampleWorld)
  /\ ExpiresBeforeDate sampleWorld "iamateapot:418" sampleNow
     = ((true, Some ("Error Fetching Certificate Chain - "
                       ++ sampleFailure)%string), sampleWorld).
Proof.
  assert (H : FetchChain sampleWorld "iamateapot:418"
              = (([], Some sampleFailure), sampleWorld)) by reflexivity.
  split; [exact H|].
  exact (C4_queries_wrap_fetch_error _ _ _ _ _ 30 sampleNow H).
Defined.

(** C5: whenever the connection or the handshake fails, [FetchChain]
    returns an error and the nil chain, the world is left as it was (the
    clock is not read), and the error message contains both the attempted
    address and the underlying cause; no call returns an error together
    with a chain. *)
Theorem C5_fetch_failure_reports_address_and_cause w address cause :
  net w address = DialError cause ->
  (exists e,
      FetchChain w address = (([], Some e), w)
      /\ Contains e address /\ Contains e cause)
  /\ (forall chain e w',
         FetchChain w address = ((chain, Some e), w') -> chain = []).
Proof.
  intros H. split.
  - eexists. split; [apply FetchChain_failed; exact H|]. split.
    + apply Contains_middle.
    + rewrite <- !string_app_assoc. apply Contains_suffix.
  - intros chain e w' He.
    destruct (FetchChain_err_inv _ _ _ _ _ He) as (_ & _ & -> & _).
    reflexivity.
Qed.

Lemma C5_fetch_failure_reports_address_and_cause_witness :
  net sampleWorld "iamateapot:418"
  = DialError "dial tcp: lookup iamateapot: no such host"
  /\ exists e,
       FetchChain sampleWorld "iamateapot:418" = (([], Some e), sampleWorld)
       /\ Contains e "iamateapot:418"
       /\ Contains e "dial tcp: lookup iamateapot: no such host".
Proof.
  assert (H : net sampleWorld "iamateapot:418"
              = DialError "dial tcp: lookup iamateapot: no such host")
    by reflexivity.
  split; [exact H|].
  exact (proj1 (C5_fetch_failure_reports_address_and_cause _ _ _ H)).
Defined.

(** C6: [ExpiresBeforeDate] is monotonic in its date: in one world (hence
    over one fetched chain), if it returns true for [t0] it returns true
    for every [t1] after [t0]. *)
Theorem C6_expires_before_date_monotone w address t0 t1 :
  t0 < t1 ->
  fst (fst (ExpiresBeforeDate w address t0)) = true ->
  fst (fst (ExpiresBeforeDate w address t1)) = true.
Proof.
  intros Hlt. unfold ExpiresBeforeDate.
  destruct (FetchChain w address) as [[chain [e|]] w']; cbn [fst].
  - auto.
  - now apply anyExpiresBefore_mono.
Qed.

Lemma C6_expires_before_date_monotone_witness :
  sampleNow < sampleNow + Hour
  /\ fst (fst (ExpiresBeforeDate sampleWorld "example.com:443" sampleNow))
     = true
  /\ fst (fst (ExpiresBeforeDate sampleWorld "example.com:443"
                 (sampleNow + Hour))) = true.
Proof.
  assert (H0 : sampleNow < sampleNow + Hour) by reflexivity.
  assert (H1 : fst (fst (ExpiresBeforeDate sampleWorld "example.com:443"
                           sampleNow)) = true) by reflexivity.
  split; [exact H0|]. split; [exact H1|].
  exact (C6_expires_before_date_monotone _ _ _ _ H0 H1).
Defined.

(** C7: [ExpiresWithinDays] answers with the strict test
    [ExpiresInDays < days] on each certificate, for every integer [days];
    for a chain whose only certificate expires in 900 hours it returns
    (false, nil) with threshold 30, and for one expiring in 360 hours it
    returns (true, nil). *)
Theorem C7_expires_within_days_strict w address days certs :
  net w address = Connected certs ->
  let now := wallclock w (ticks w) in
  fst (ExpiresWithinDays w address days)
  = (existsb (fun cert => daysUntil (NotAfter cert) now <? days) certs, None)
  /\ (map NotAfter certs = [now + 900 * Hour] ->
      fst (ExpiresWithinDays w address 30) = (false, None))
  /\ (map NotAfter certs = [now + 360 * Hour] ->
      fst (ExpiresWithinDays w address 30) = (true, None)).
Proof.
  intros H now.
  assert (Hq : forall n,
             fst (ExpiresWithinDays w address n)
             = (existsb (fun cert => daysUntil (NotAfter cert) now <? n) certs,
                None)).
  { intros n.
    rewrite (ExpiresWithinDays_ok _ _ n _ _ (FetchChain_connected _ _ _ H)).
    cbn [fst]. now rewrite anyExpiresWithin_existsb, existsb_map. }
  split; [apply Hq|].
  split; intros Hc; rewrite Hq;
    destruct certs as [|cert [|]]; try discriminate;
    injection Hc as Hc; cbn [existsb]; rewrite Hc, daysUntil_offset;
    reflexivity || (unfold minInt64, maxInt64, Hour, Second; lia).
Qed.

Lemma C7_expires_within_days_strict_witness :
  net sampleWorld "leaf.example.com:443" = Connected [leafCert]
  /\ map NotAfter [leafCert] = [sampleNow + 360 * Hour]
  /\ fst (ExpiresWithinDays sampleWorld "leaf.example.com:443" 30)
     = (true, None).
Proof.
  assert (H : net sampleWorld "leaf.example.com:443" = Connected [leafCert])
    by reflexivity.
  assert (Hc : map NotAfter [leafCert] = [sampleNow + 360 * Hour])
    by reflexivity.
  split; [exact H|]. split; [exact Hc|].
  exact (proj2 (proj2 (C7_expires_within_days_strict _ _ 30 _ H)) Hc).
Defined.

(** C8: for every certificate of the peer chain the record's
    [ExpirationDate] is the certificate's [NotAfter], and its signature and
    serial number are those of the certificate, whatever the observation
    instant: two fetches of the same certificates at different instants
    agree on the three fields. *)
Theorem C8_metadata_copied_verbatim w address certs :
  net w address = Connected certs ->
  let chain := fst (fst (FetchChain w address)) in
  map ExpirationDate chain = map NotAfter certs
  /\ map Signature chain = map cert_Signature certs
  /\ map SerialNumber chain = map cert_SerialNumber certs
  /\ (forall w2 address2,
         net w2 address2 = Connected certs ->
         let chain2 := fst (fst (FetchChain w2 address2)) in
         map ExpirationDate chain2 = map ExpirationDate chain
         /\ map Signature chain2 = map Signature chain
         /\ map SerialNumber chain2 = map SerialNumber chain).
Proof.
  intros H chain.
  assert (Hm : forall w1 a1,
             net w1 a1 = Connected certs ->
             map ExpirationDate (fst (fst (FetchChain w1 a1)))
             = map NotAfter certs
             /\ map Signature (fst (fst (FetchChain w1 a1)))
                = map cert_Signature certs
             /\ map SerialNumber (fst (fst (FetchChain w1 a1)))
                = map cert_SerialNumber certs).
  { intros w1 a1 H1. rewrite (FetchChain_connected _ _ _ H1). cbn [fst].
    rewrite !map_map. auto. }
  destruct (Hm _ _ H) as (E1 & E2 & E3).
  split; [exact E1|]. split; [exact E2|]. split; [exact E3|].
  intros w2 address2 H2 chain2. destruct (Hm _ _ H2) as (F1 & F2 & F3).
  unfold chain2, chain. rewrite E1, E2, E3. auto.
Qed.

Lemma C8_metadata_copied_verbatim_witness :
  net sampleWorld "example.com:443" = Connected [leafCert; staleCert]
  /\ map ExpirationDate sampleChain = map NotAfter [leafCert; staleCert]
  /\ map Signature sampleChain = map cert_Signature [leafCert; staleCert]
  /\ map SerialNumber sampleChain
     = map cert_SerialNumber [leafCert; staleCert].
Proof.
  assert (H : net sampleWorld "example.com:443"
              = Connected [leafCert; staleCert]) by reflexivity.
  split; [exact H|].
  destruct (C8_metadata_copied_verbatim _ _ _ H) as (E1 & E2 & E3 & _).
  exact (conj E1 (conj E2 E3)).
Defined.

(** C9: a successful [FetchChain] reads the clock exactly once, whatever
    the number of certificates, and maps the certificates with a function
    of the certificate and that instant alone: the chain has one record per
    peer certificate, in the peer's order, and any other fetch of the same
    certificates at the same instant yields the identical chain. *)
Theorem C9_single_observation_pure_mapping w address certs :
  net w address = Connected certs ->
  let now := wallclock w (ticks w) in
  let chain := fst (fst (FetchChain w address)) in
  ticks (snd (FetchChain w address)) = S (ticks w)
  /\ chain = map (certStatus now) certs
  /\ List.length chain = List.length certs
  /\ (forall i cert,
         nth_error certs i = Some cert ->
         nth_error chain i = Some (certStatus now cert))
  /\ (forall w2 address2,
         net w2 address2 = Connected certs ->
         wallclock w2 (ticks w2) = now ->
         fst (fst (FetchChain w2 address2)) = chain).
Proof.
  intros H now chain. unfold chain.
  rewrite (FetchChain_connected _ _ _ H). cbn [fst snd ticks]. fold now.
  split; [reflexivity|]. split; [reflexivity|].
  split; [apply length_map|]. split.
  - intros i cert Hi. now apply map_nth_error.
  - intros w2 address2 H2 Hnow.
    rewrite (FetchChain_connected _ _ _ H2). cbn [fst]. now rewrite Hnow.
Qed.

Lemma C9_single_observation_pure_mapping_witness :
  net sampleWorld "example.com:443" = Connected [leafCert; staleCert]
  /\ ticks sampleWorldAfter = 1%nat
  /\ sampleChain = [certStatus sampleNow leafCert;
                    certStatus sampleNow staleCert].
Proof.
  assert (H : net sampleWorld "example.com:443"
              = Connected [leafCert; staleCert]) by reflexivity.
  split; [exact H|].
  destruct (C9_single_observation_pure_mapping _ _ _ H) as (E1 & E2 & _).
  exact (conj E1 E2).
Defined.

(** C10: for every record produced by [FetchChain], if [ExpiredNow] is true
    then [ExpiresInDays] is at most 0, and it is 0, not negative, for a
    certificate expired by less than 24 hours, because the conversion to
    [int] truncates toward zero; consequently, in one world, whenever
    [Expired] returns true, [ExpiresWithinDays] returns true for every
    threshold of at least 1. *)
Theorem C10_expired_implies_within_one_day w address chain w' :
  FetchChain w address = ((chain, None), w') ->
  let now := wallclock w (ticks w) in
  Forall (fun c =>
    (ExpiredNow c = true -> ExpiresInDays c <= 0)
    /\ (now - Day < ExpirationDate c < now -> ExpiresInDays c = 0)) chain
  /\ (forall days,
         1 <= days ->
         fst (fst (Expired w address)) = true ->
         fst (fst (ExpiresWithinDays w address days)) = true).
Proof.
  intros H now.
  assert (HF : Forall (fun c =>
             (ExpiredNow c = true -> ExpiresInDays c <= 0)
             /\ (now - Day < ExpirationDate c < now -> ExpiresInDays c = 0))
           chain).
  { apply Forall_forall. intros c Hin.
    destruct (in_fetched_chain _ _ _ _ _ H Hin) as (cert & ->).
    destruct (daysUntil_spec (NotAfter cert) now)
      as (_ & _ & _ & _ & Hexp & Hnear & _).
    split.
    - intros He. apply ExpiredNow_certStatus in He. exact (Hexp He).
    - intros Hn. apply Hnear. cbn [ExpirationDate certStatus] in Hn.
      rewrite Day_value in *. lia. }
  split; [exact HF|].
  intros days Hdays.
  rewrite (Expired_ok _ _ _ _ H), (ExpiresWithinDays_ok _ _ days _ _ H).
  cbn [fst]. intros He. apply anyExpiredNow_spec in He.
  destruct He as (c & Hin & Hc). apply anyExpiresWithin_spec.
  exists c. split; [exact Hin|].
  rewrite Forall_forall in HF. destruct (HF c Hin) as [Hle _].
  specialize (Hle Hc). lia.
Qed.

Lemma C10_expired_implies_within_one_day_witness :
  FetchChain sampleWorld "example.com:443"
  = ((sampleChain, None), sampleWorldAfter)
  /\ Forall (fun c =>
       (ExpiredNow c = true -> ExpiresInDays c <= 0)
       /\ (sampleNow - Day < ExpirationDate c < sampleNow ->
           ExpiresInDays c = 0)) sampleChain
  /\ (fst (fst (Expired sampleWorld "example.com:443")) = true ->
      fst (fst (ExpiresWithinDays sampleWorld "example.com:443" 1)) = true).
Proof.
  assert (H : FetchChain sampleWorld "example.com:443"
              = ((sampleChain, None), sampleWorldAfter)) by reflexivity.
  split; [exact H|].
  destruct (C10_expired_implies_within_one_day _ _ _ _ H) as [HF Hq].
  split; [exact HF|]. exact (Hq 1 ltac:(discriminate)).
Defined.

(** * Further properties *)

(** ** The day count, by whole days *)

Lemma bpow_m5 : (bpow (-5) * 32 = 1)%R.
Proof. exact (bpow_neg_inv 5 ltac:(lia)). Qed.

(** A positive duration that does not end within 1676ns of a whole day
    counts exactly its whole days. *)
Lemma wholeDays_pos_day d :
  0 < d <= 2 ^ 63 ->
  Z.rem d Day <= Day - 1677 ->
  wholeDays d = Z.quot d Day.
Proof.
  intros Hd Hrem.
  destruct (wholeDays_pos d Hd) as (Hb & He & _ & _).
  assert (HH : Hour = 3600000000000) by reflexivity.
  pose proof (Z.quot_rem' d Hour) as Hqr.
  pose proof (Z.rem_bound_pos d Hour ltac:(lia) ltac:(rewrite HH; lia)) as Hn.
  pose proof (Z.quot_pos d Hour ltac:(lia) ltac:(rewrite HH; lia)) as Hh.
  pose proof (Z.quot_rem' (Z.quot d Hour) 24) as Hq.
  pose proof (Z.rem_bound_pos (Z.quot d Hour) 24 ltac:(lia) ltac:(lia)) as Hr.
  pose proof (Z.quot_pos (Z.quot d Hour) 24 ltac:(lia) ltac:(lia)) as Hq0.
  assert (Hrd : Z.rem d Day
                = Z.rem (Z.quot d Hour) 24 * Hour + Z.rem d Hour).
  { symmetry. apply (Z.rem_unique d Day (Z.quot (Z.quot d Hour) 24)).
    - lia.
    - rewrite Day_value, HH in *. lia.
    - rewrite Day_value, HH in *. lia. }
  destruct (Z_le_gt_dec (Z.rem (Z.quot d Hour) 24) 22) as [Hsmall | Hlast].
  - (* the last hour of the day is not reached *)
    destruct (wholeDays_core d Hd)
      as (v1 & v & v2 & Hf1 & Hv1 & Hf & Hf2 & Ht0 & Ht & _).
    rewrite quot_Day in *.
    set (h := Z.quot d Hour) in *. set (q := Z.quot h 24) in *.
    set (r := Z.rem h 24) in *. set (t := wholeDays d) in *.
    assert (Hqmax : q <= 106751) by (rewrite HH in *; lia).
    assert (Hhr : (IZR h <= IZR (24 * q + 22))%R) by (apply IZR_le; lia).
    destruct Hf as [_ Hhi]. destruct Hf2 as [_ Hhi2].
    assert (Hv : (v <= IZR (24 * q + 23))%R).
    { apply Hhi; [apply representable_int; lia|].
      rewrite plus_IZR in *. lra. }
    assert (Hv2 : (v2 <= IZR (q + 1) - bpow (-5))%R).
    { apply Hhi2; [apply (representable_pred (q + 1) 5); lia|].
      pose proof bpow_m5. rewrite ?plus_IZR, ?mult_IZR in *. lra. }
    assert (t < q + 1); [|lia].
    apply lt_IZR. pose proof (bpow_pos (-5)). lra.
  - apply He. rewrite Day_value, HH in *. lia.
Qed.

(** For every [int64] duration. *)
Lemma wholeDays_exact_day d :
  minInt64 <= d <= maxInt64 ->
  Z.abs (Z.rem d Day) <= Day - 1677 ->
  wholeDays d = Z.quot d Day.
Proof.
  unfold minInt64, maxInt64. intros Hd Hrem.
  destruct (Z.lt_trichotomy d 0) as [Hneg | [-> | Hpos]].
  - destruct (wholeDays_pos (- d)) as (_ & _ & _ & Ho); [lia|].
    rewrite Z.opp_involutive in Ho. rewrite Ho.
    rewrite (wholeDays_pos_day (- d)).
    + rewrite Z.quot_opp_l by (rewrite Day_value; lia). lia.
    + lia.
    + rewrite Z.rem_opp_l by (rewrite Day_value; lia). lia.
  - reflexivity.
  - apply wholeDays_pos_day; lia.
Qed.

(** The count never leaves the 292 years that an [int64] of nanoseconds
    can hold. *)
Lemma wholeDays_bound d :
  minInt64 <= d <= maxInt64 -> -106751 <= wholeDays d <= 106751.
Proof.
  unfold minInt64, maxInt64. intros Hd.
  assert (Hpos : forall a, 0 < a <= 2 ^ 63 -> 0 <= wholeDays a <= 106751).
  { intros a Ha. destruct (wholeDays_pos a Ha) as (Hb & _ & _ & _).
    pose proof (Z.quot_pos a Day ltac:(lia) ltac:(rewrite Day_value; lia)).
    split; [lia|].
    pose proof (Z.quot_rem' a Day) as Hqr.
    pose proof (Z.rem_bound_pos a Day ltac:(lia) ltac:(rewrite Day_value; lia)).
    destruct (Z_le_gt_dec (Z.quot a Day) 106750); [lia|].
    rewrite (wholeDays_pos_day a Ha); rewrite Day_value in *; lia. }
  destruct (Z.lt_trichotomy d 0) as [Hneg | [-> | Hp]].
  - destruct (wholeDays_pos (- d)) as (_ & _ & _ & Ho); [lia|].
    rewrite Z.opp_involutive in Ho. rewrite Ho.
    specialize (Hpos (- d) ltac:(lia)). lia.
  - rewrite wholeDays_0. lia.
  - specialize (Hpos d ltac:(lia)). lia.
Qed.

Lemma Sub_clamped notAfter now :
  minInt64 <= Z.max minDuration (Z.min maxDuration (notAfter - now))
  <= maxInt64.
Proof. unfold minDuration, maxDuration, minInt64, maxInt64. lia. Qed.

Lemma daysUntil_bound notAfter now :
  -106751 <= daysUntil notAfter now <= 106751.
Proof.
  unfold daysUntil. rewrite Sub_saturates.
  apply wholeDays_bound, Sub_clamped.
Qed.

(** A certificate that has not expired never has a negative count. *)
Lemma daysUntil_nonneg notAfter now :
  now <= notAfter -> 0 <= daysUntil notAfter now.
Proof.
  intros H. destruct (daysUntil_spec notAfter now) as (_ & Hp & _).
  pose proof (Sub_clamped notAfter now) as Hc.
  set (d := Z.max minDuration (Z.min maxDuration (notAfter - now))) in *.
  assert (Hd : 0 <= d)
    by (unfold d, minDuration, maxDuration, minInt64, maxInt64; lia).
  pose proof (Z.quot_pos d Day Hd ltac:(rewrite Day_value; lia)).
  specialize (Hp Hd). lia.
Qed.

(** The count against a threshold of at least one day, in terms of the
    time that remains. *)
Lemma daysUntil_lt_complete notAfter now days :
  1 <= days ->
  notAfter - now <= days * Day - 1677 ->
  daysUntil notAfter now < days.
Proof.
  intros Hdays Hrem.
  destruct (Z_lt_ge_dec notAfter now) as [Hexp | Hlive].
  - destruct (daysUntil_spec notAfter now) as (_ & _ & _ & _ & He & _).
    specialize (He Hexp). lia.
  - destruct (daysUntil_spec notAfter now) as (Heq & Hp & _).
    pose proof (Sub_clamped notAfter now) as Hc.
    set (d := Z.max minDuration (Z.min maxDuration (notAfter - now))) in *.
    assert (Hd : 0 <= d <= notAfter - now)
      by (unfold d, minDuration, maxDuration, minInt64, maxInt64; lia).
    pose proof (Z.quot_rem' d Day) as Hqr.
    pose proof (Z.rem_bound_pos d Day ltac:(lia) ltac:(rewrite Day_value; lia))
      as Hr.
    specialize (Hp ltac:(lia)).
    destruct (Z_le_gt_dec (Z.quot d Day) (days - 2)) as [|Hq]; [lia|].
    rewrite Heq, (wholeDays_exact_day d Hc); rewrite Day_value in *; nia.
Qed.

Lemma daysUntil_lt_sound notAfter now days :
  days <= 106751 ->
  daysUntil notAfter now < days ->
  notAfter - now < days * Day.
Proof.
  intros Hdays Hlt.
  destruct (Z_lt_ge_dec (notAfter - now) (days * Day)) as [|Hge]; [assumption|].
  exfalso.
  destruct (Z_lt_ge_dec notAfter now) as [Hexp | Hlive].
  - (* then the threshold is not positive and the count is below it *)
    destruct (daysUntil_spec notAfter now) as (_ & _ & Hn & _).
    pose proof (Sub_clamped notAfter now) as Hc.
    set (d := Z.max minDuration (Z.min maxDuration (notAfter - now))) in *.
    assert (Hd : days * Day <= d <= 0).
    { unfold d, minDuration, maxDuration, minInt64, maxInt64.
      rewrite Day_value in *. lia. }
    specialize (Hn ltac:(lia)).
    assert (days <= Z.quot d Day).
    { rewrite <- (Z.opp_involutive d).
      rewrite Z.quot_opp_l by (rewrite Day_value; lia).
      assert (Z.quot (- d) Day <= - days); [|lia].
      apply Z.quot_le_upper_bound; rewrite Day_value in *; lia. }
    destruct (Z_le_gt_dec (Z.quot d Day) days) as [Hqe|]; [|lia].
    assert (Hq : Z.quot d Day = days) by lia.
    (* the count is [days] or [days - 1]; it is [days] when [d] is a whole
       number of days *)
    pose proof (Z.quot_rem' d Day) as Hqr.
    assert (Hr0 : Z.rem d Day = 0).
    { pose proof (Z.rem_bound_pos_neg d Day ltac:(rewrite Day_value; lia)
                    ltac:(lia)).
      rewrite Hq in Hqr. rewrite Day_value in *. lia. }
    destruct (daysUntil_spec notAfter now) as (Heq & _).
    fold d in Heq.
    rewrite Heq, (wholeDays_exact_day d Hc) in Hlt
      by (rewrite Hr0, Day_value; simpl; lia).
    lia.
  - destruct (daysUntil_spec notAfter now) as (_ & Hp & _).
    set (d := Z.max minDuration (Z.min maxDuration (notAfter - now))) in *.
    assert (Hd : days * Day <= d).
    { unfold d, minDuration, maxDuration, minInt64, maxInt64.
      rewrite Day_value in *. lia. }
    assert (0 <= d).
    { unfold d, minDuration, maxDuration, minInt64, maxInt64. lia. }
    specialize (Hp ltac:(lia)).
    assert (days <= Z.quot d Day).
    { apply Z.quot_le_lower_bound; rewrite Day_value in *; lia. }
    lia.
Qed.

(** ** The queries, one against the other *)

Lemma anyExpiredNow_before now certs :
  anyExpiredNow (map (certStatus now) certs)
  = anyExpiresBefore now (map (certStatus now) certs).
Proof.
  induction certs as [|cert rest IH]; simpl; [reflexivity|].
  rewrite IH. now destruct (Before (NotAfter cert) now).
Qed.

(** [Expired] is [ExpiresBeforeDate] asked about the instant that the fetch
    itself observes: the two calls return the same boolean, the same error
    and the same world. *)
Theorem Expired_is_ExpiresBeforeDate_now w address :
  Expired w address = ExpiresBeforeDate w address (wallclock w (ticks w)).
Proof.
  unfold Expired, ExpiresBeforeDate.
  destruct (net w address) as [certs|cause] eqn:E.
  - rewrite (FetchChain_connected _ _ _ E).
    now rewrite anyExpiredNow_before.
  - now rewrite (FetchChain_failed _ _ _ E).
Qed.

(** [ExpiresWithinDays] is monotonic in its threshold. *)
Theorem ExpiresWithinDays_monotone w address days days' :
  days <= days' ->
  fst (fst (ExpiresWithinDays w address days)) = true ->
  fst (fst (ExpiresWithinDays w address days')) = true.
Proof.
  intros Hle. unfold ExpiresWithinDays.
  destruct (FetchChain w address) as [[chain [e|]] w']; cbn [fst]; [auto|].
  intros H. apply anyExpiresWithin_spec in H. destruct H as (c & Hin & Hc).
  apply anyExpiresWithin_spec. exists c. split; [exact Hin | lia].
Qed.

Lemma ExpiresWithinDays_monotone_witness :
  15 <= 30
  /\ fst (fst (ExpiresWithinDays sampleWorld "example.com:443" 15)) = true
  /\ fst (fst (ExpiresWithinDays sampleWorld "example.com:443" 30)) = true.
Proof.
  assert (H0 : 15 <= 30) by discriminate.
  assert (H1 : fst (fst (ExpiresWithinDays sampleWorld "example.com:443" 15))
               = true) by reflexivity.
  split; [exact H0|]. split; [exact H1|].
  exact (ExpiresWithinDays_monotone _ _ _ _ H0 H1).
Defined.

(** A threshold of zero days or less only matches certificates that are
    already expired: when [ExpiresWithinDays] returns true for it, so does
    [Expired]. *)
Theorem ExpiresWithinDays_nonpositive_means_expired w address days :
  days <= 0 ->
  fst (fst (ExpiresWithinDays w address days)) = true ->
  fst (fst (Expired w address)) = true.
Proof.
  intros Hdays. unfold ExpiresWithinDays, Expired.
  destruct (FetchChain w address) as [[chain [e|]] w'] eqn:E; cbn [fst];
    [auto|].
  intros H. apply anyExpiresWithin_spec in H. destruct H as (c & Hin & Hc).
  apply anyExpiredNow_spec. exists c. split; [exact Hin|].
  destruct (in_fetched_chain _ _ _ _ _ E Hin) as (cert & ->).
  apply ExpiredNow_certStatus.
  destruct (Z_lt_ge_dec (NotAfter cert) (wallclock w (ticks w)))
    as [|Hlive]; [assumption|].
  pose proof (daysUntil_nonneg (NotAfter cert) (wallclock w (ticks w))
                ltac:(lia)).
  cbn [ExpiresInDays certStatus] in Hc. lia.
Qed.

(** ** The range of the day count *)

(** Whatever the dates of the certificate, [ExpiresInDays] lies between
    -106751 and 106751, the whole days in the largest [Duration].  Hence a
    threshold above 106751 makes [ExpiresWithinDays] true for every chain
    that has a certificate, and a threshold of -106751 or less makes it
    false for every chain. *)
Theorem ExpiresInDays_bounded w address chain w' :
  FetchChain w address = ((chain, None), w') ->
  Forall (fun c => -106751 <= ExpiresInDays c <= 106751) chain
  /\ (forall days,
         106751 < days -> chain <> [] ->
         fst (ExpiresWithinDays w address days) = (true, None))
  /\ (forall days,
         days <= -106751 ->
         fst (ExpiresWithinDays w address days) = (false, None)).
Proof.
  intros H.
  assert (HF : Forall (fun c => -106751 <= ExpiresInDays c <= 106751) chain).
  { apply Forall_forall. intros c Hin.
    destruct (in_fetched_chain _ _ _ _ _ H Hin) as (cert & ->).
    apply daysUntil_bound. }
  split; [exact HF|]. rewrite Forall_forall in HF.
  split; intros days Hdays.
  - intros Hne. rewrite (ExpiresWithinDays_ok _ _ days _ _ H). cbn [fst].
    f_equal. destruct chain as [|c rest]; [congruence|].
    apply anyExpiresWithin_spec. exists c.
    split; [left; reflexivity|]. specialize (HF c (or_introl eq_refl)). lia.
  - rewrite (ExpiresWithinDays_ok _ _ days _ _ H). cbn [fst]. f_equal.
    destruct (anyExpiresWithin days chain) eqn:E; [|reflexivity].
    apply anyExpiresWithin_spec in E. destruct E as (c & Hin & Hc).
    specialize (HF c Hin). lia.
Qed.

Lemma ExpiresInDays_bounded_witness :
  FetchChain sampleWorld "example.com:443"
  = ((sampleChain, None), sampleWorldAfter)
  /\ Forall (fun c => -106751 <= ExpiresInDays c <= 106751) sampleChain.
Proof.
  assert (H : FetchChain sampleWorld "example.com:443"
              = ((sampleChain, None), sampleWorldAfter)) by reflexivity.
  split; [exact H|].
  exact (proj1 (ExpiresInDays_bounded _ _ _ _ H)).
Defined.

(** A certificate whose expiration lies further from the observation
    instant than a [Duration] can hold gets the saturated count: 106751 in
    the future, -106751 in the past. *)
Theorem ExpiresInDays_saturates now cert :
  (maxDuration <= NotAfter cert - now ->
   ExpiresInDays (certStatus now cert) = 106751)
  /\ (NotAfter cert - now <= minDuration ->
      ExpiresInDays (certStatus now cert) = -106751).
Proof.
  split; intros H; cbn [ExpiresInDays certStatus].
  - now apply daysUntil_saturates.
  - unfold daysUntil. rewrite Sub_saturates.
    replace (Z.max minDuration (Z.min maxDuration (NotAfter cert - now)))
      with minDuration
      by (unfold minDuration, maxDuration, minInt64, maxInt64 in *; lia).
    reflexivity.
Qed.

(** ** [ExpiresWithinDays] and the time that remains *)

(** For a threshold of at least one day, [ExpiresWithinDays] returns true
    as soon as some certificate expires no later than 1677ns before the
    end of the [days]-th day from the observation instant; and for a
    threshold of at most 106751 days it returns true only if some
    certificate expires before the end of that day. *)
Theorem ExpiresWithinDays_remaining_time w address certs days :
  net w address = Connected certs ->
  let now := wallclock w (ticks w) in
  (1 <= days ->
   (exists cert, In cert certs /\ NotAfter cert - now <= days * Day - 1677) ->
   fst (ExpiresWithinDays w address days) = (true, None))
  /\ (days <= 106751 ->
      fst (fst (ExpiresWithinDays w address days)) = true ->
      exists cert, In cert certs /\ NotAfter cert - now < days * Day).
Proof.
  intros H now.
  rewrite (ExpiresWithinDays_ok _ _ days _ _ (FetchChain_connected _ _ _ H)).
  cbn [fst]. fold now. split.
  - intros Hdays (cert & Hin & Hrem). f_equal.
    apply anyExpiresWithin_spec. exists (certStatus now cert).
    split; [now apply in_map|].
    now apply daysUntil_lt_complete.
  - intros Hdays Ht. apply anyExpiresWithin_spec in Ht.
    destruct Ht as (c & Hin & Hc). apply in_map_iff in Hin.
    destruct Hin as (cert & <- & Hin). exists cert. split; [exact Hin|].
    now apply daysUntil_lt_sound.
Qed.

Lemma ExpiresWithinDays_remaining_time_witness :
  net sampleWorld "leaf.example.com:443" = Connected [leafCert]
  /\ 1 <= 15 + 1
  /\ (exists cert,
         In cert [leafCert]
         /\ NotAfter cert - sampleNow <= (15 + 1) * Day - 1677)
  /\ fst (ExpiresWithinDays sampleWorld "leaf.example.com:443" (15 + 1))
     = (true, None).
Proof.
  assert (H : net sampleWorld "leaf.example.com:443" = Connected [leafCert])
    by reflexivity.
  assert (Hd : 1 <= 15 + 1) by discriminate.
  assert (He : exists cert,
             In cert [leafCert]
             /\ NotAfter cert - sampleNow <= (15 + 1) * Day - 1677).
  { exists leafCert. split; [left; reflexivity | discriminate]. }
  split; [exact H|]. split; [exact Hd|]. split; [exact He|].
  exact (proj1 (ExpiresWithinDays_remaining_time _ _ _ (15 + 1) H) Hd He).
Defined.

(** ** Two calls in a row *)

(** When the peer presents the same certificates and the wall clock does
    not step back between two calls, a chain that [Expired] reports as
    expired is still reported as expired by the next call. *)
Theorem Expired_persists w address certs :
  net w address = Connected certs ->
  wallclock w (ticks w) <= wallclock w (S (ticks w)) ->
  fst (fst (Expired w address)) = true ->
  fst (Expired (snd (Expired w address)) address) = (true, None).
Proof.
  intros H Hclock.
  rewrite (Expired_ok _ _ _ _ (FetchChain_connected _ _ _ H)). cbn [fst snd].
  intros He.
  set (w1 := {| net := net w; wallclock := wallclock w;
                ticks := S (ticks w) |}).
  assert (H1 : net w1 address = Connected certs) by exact H.
  rewrite (Expired_ok _ _ _ _ (FetchChain_connected _ _ _ H1)). cbn [fst].
  f_equal. cbn [w1 wallclock ticks].
  apply anyExpiredNow_spec in He. destruct He as (c & Hin & Hc).
  apply in_map_iff in Hin. destruct Hin as (cert & <- & Hin).
  apply ExpiredNow_certStatus in Hc.
  apply anyExpiredNow_spec. exists (certStatus (wallclock w (S (ticks w))) cert).
  split; [now apply in_map|]. apply ExpiredNow_certStatus. lia.
Qed.

Lemma Expired_persists_witness :
  net sampleWorld "example.com:443" = Connected [leafCert; staleCert]
  /\ wallclock sampleWorld (ticks sampleWorld)
     <= wallclock sampleWorld (S (ticks sampleWorld))
  /\ fst (fst (Expired sampleWorld "example.com:443")) = true
  /\ fst (Expired (snd (Expired sampleWorld "example.com:443"))
            "example.com:443") = (true, None).
Proof.
  assert (H : net sampleWorld "example.com:443"
              = Connected [leafCert; staleCert]) by reflexivity.
  assert (Hc : wallclock sampleWorld (ticks sampleWorld)
               <= wallclock sampleWorld (S (ticks sampleWorld)))
    by discriminate.
  assert (He : fst (fst (Expired sampleWorld "example.com:443")) = true)
    by reflexivity.
  split; [exact H|]. split; [exact Hc|]. split; [exact He|].
  exact (Expired_persists _ _ _ H Hc He).
Defined.

(** ** Rounding to nearest is monotone *)

Lemma located_inbetween m e l x : located m e l x -> inbetween m e l x.
Proof. destruct l; simpl; tauto. Qed.

Lemma F2R_mid m e : F2R (2 * m + 1) (e + 1 - 1) = ((IZR m + / 2) * bpow (e + 1))%R.
Proof.
  replace (e + 1 - 1) with e by lia. unfold F2R.
  rewrite bpow_succ, plus_IZR, mult_IZR. field.
Qed.

Lemma F2R_succ_exp m e : F2R m (e + 1) = (IZR m * bpow e * 2)%R.
Proof. unfold F2R. rewrite bpow_succ. ring. Qed.

(** After one step of the right shift the location tells the side of the
    new midpoint. *)
Lemma shr_1_located mrs e x :
  0 <= shr_m mrs ->
  inbetween (shr_m mrs) e (loc_of_shr_record mrs) x ->
  located (shr_m (shr_1 mrs)) (e + 1) (loc_of_shr_record (shr_1 mrs)) x.
Proof.
  destruct mrs as [m r s]. cbn [shr_m]. intros Hm.
  pose proof (bpow_pos e) as Hp.
  destruct m as [|p|p]; [| |lia].
  - destruct r, s; cbn [shr_1 orb loc_of_shr_record shr_m inbetween located];
      rewrite ?F2R_mid, ?F2R_succ_exp, ?bpow_succ; unfold F2R;
      cbn [Z.add]; intros H; lra.
  - destruct p as [p|p|]; destruct r, s;
      cbn [shr_1 orb loc_of_shr_record shr_m inbetween located];
      rewrite ?F2R_mid, ?F2R_succ_exp, ?bpow_succ; unfold F2R;
      rewrite ?plus_IZR, ?(IZR_xI p), ?(IZR_xO p);
      intros H; lra.
Qed.

Lemma iter_shr_1_located p :
  forall mrs e x,
    0 <= shr_m mrs ->
    inbetween (shr_m mrs) e (loc_of_shr_record mrs) x ->
    located (shr_m (SpecFloat.iter_pos shr_1 p mrs)) (e + Z.pos p)
      (loc_of_shr_record (SpecFloat.iter_pos shr_1 p mrs)) x.
Proof.
  induction p as [p IH|p IH|]; intros mrs e x Hm Hx; cbn [SpecFloat.iter_pos].
  - destruct (shr_1_inbetween _ _ _ Hm Hx) as [H1 H2].
    destruct (iter_shr_1_inbetween p _ _ _ H1 H2) as [H3 H4].
    replace (e + Z.pos p~1) with (e + 1 + Z.pos p + Z.pos p) by lia.
    now apply IH.
  - destruct (iter_shr_1_inbetween p _ _ _ Hm Hx) as [H3 H4].
    replace (e + Z.pos p~0) with (e + Z.pos p + Z.pos p) by lia.
    now apply IH.
  - now apply shr_1_located.
Qed.

Lemma shr_located m l e n x :
  0 <= m -> 0 <= n -> located m e l x ->
  exists mrs',
    shr (shr_record_of_loc m l) e n = (mrs', e + n)
    /\ 0 <= shr_m mrs'
    /\ located (shr_m mrs') (e + n) (loc_of_shr_record mrs') x.
Proof.
  intros Hm Hn Hx.
  destruct (shr_inbetween m l e n x Hm Hn (located_inbetween _ _ _ _ Hx))
    as (mrs' & Hs & Hm' & _).
  exists mrs'. split; [exact Hs|]. split; [exact Hm'|].
  assert (Hl : loc_of_shr_record (shr_record_of_loc m l) = l)
    by (destruct l as [|[]]; reflexivity).
  assert (Hsm : shr_m (shr_record_of_loc m l) = m)
    by (destruct l as [|[]]; reflexivity).
  destruct n as [|p|p]; [| |lia]; cbn [shr] in Hs.
  - injection Hs as <-. rewrite Z.add_0_r, Hl, Hsm. exact Hx.
  - injection Hs as <-. apply iter_shr_1_located; rewrite ?Hl, Hsm; auto.
    now apply located_inbetween.
Qed.

(** The rounding step, with the mantissa before the final rounding: the
    result is [round_nearest_even] of the normalised mantissa [m'] at the
    exponent fixed by the magnitude of [x], and the location tells where [x]
    lies between [m'] and [m' + 1]. *)
Lemma binary_round_aux_nearest s mx ex lx x :
  0 < mx ->
  located mx ex lx x ->
  ex <= fexp prec emax (Zdigits2 mx + ex) ->
  emin prec emax + prec <= Zdigits2 mx + ex <= 1000 ->
  exists m e m' e' l',
    binary_round_aux prec emax s mx ex lx = S754_finite s m e
    /\ 2 ^ 52 <= m' < 2 ^ 53
    /\ located m' e' l' x
    /\ F2R (Z.pos m) e = F2R (round_nearest_even m' l') e'.
Proof.
  intros Hmx Hx Hex Hrange.
  destruct mx as [|pmx|pmx]; try lia. cbn [Zdigits2] in *.
  set (d := Z.pos (digits2_pos pmx)) in *.
  pose proof (digits_bounds pmx) as Hd. fold d in Hd.
  rewrite fexp_normal in Hex by lia.
  unfold binary_round_aux, shr_fexp. cbn [Zdigits2]. fold d.
  rewrite fexp_normal by lia.
  destruct (shr_located (Z.pos pmx) lx ex (d + ex - prec - ex) x)
    as (mrs' & -> & Hm'0 & Hin'); [lia | lia | exact Hx |].
  replace (ex + (d + ex - prec - ex)) with (d + ex - prec) in * by lia.
  set (e' := d + ex - prec) in *.
  set (m' := shr_m mrs') in *.
  set (l' := loc_of_shr_record mrs') in *.
  pose proof (inbetween_bounds _ _ _ _ (located_inbetween _ _ _ _ Hx)) as Hxb.
  pose proof (inbetween_bounds _ _ _ _ (located_inbetween _ _ _ _ Hin'))
    as Hxb'.
  assert (Hm'hi : m' < 2 ^ 53).
  { apply (F2R_lt_inv _ _ e').
    apply Rle_lt_trans with x; [lra|].
    apply Rlt_le_trans with (F2R (Z.pos pmx + 1) ex); [lra|].
    apply Rle_trans with (F2R (2 ^ d) ex); [apply F2R_le; lia|].
    rewrite !F2R_pow2 by lia. apply bpow_le. unfold e', prec. lia. }
  assert (Hm'lo : 2 ^ 52 <= m').
  { assert (2 ^ 52 < m' + 1); [|lia].
    apply (F2R_lt_inv _ _ e').
    apply Rle_lt_trans with x; [|lra].
    apply Rle_trans with (F2R (Z.pos pmx) ex); [|lra].
    apply Rle_trans with (F2R (2 ^ (d - 1)) ex); [|apply F2R_le; lia].
    rewrite !F2R_pow2 by lia. apply bpow_le. unfold e', prec. lia. }
  set (m1 := round_nearest_even m' l').
  assert (Hm1 : m' <= m1 <= m' + 1).
  { unfold m1, round_nearest_even.
    destruct l' as [|[]]; try destruct (Z.even m'); lia. }
  destruct (Z.eq_dec m1 (2 ^ 53)) as [Heq | Hne].
  - rewrite Heq in *.
    change (Zdigits2 (2 ^ 53)) with 54.
    rewrite fexp_normal by (unfold e', emin, prec, emax in *; lia).
    replace (54 + e' - prec - e') with 1 by (unfold prec; lia).
    cbn [shr shr_record_of_loc SpecFloat.iter_pos shr_1 shr_m Z.pow Z.pow_pos
           Pos.iter Z.mul Pos.mul].
    assert (Hle : (e' + 1 <=? emax - prec) = true)
      by (apply Z.leb_le; unfold e', emax, prec in *; lia).
    rewrite Hle.
    eexists _, _, m', e', l'. split; [reflexivity|].
    split; [lia|]. split; [exact Hin'|]. fold m1. rewrite Heq.
    change (2 ^ 53) with (4503599627370496 * 2 ^ 1).
    now rewrite F2R_shift by lia.
  - assert (Hm1p : 2 ^ 52 <= m1 < 2 ^ 53) by lia.
    destruct m1 as [|pm1|pm1] eqn:Em1; try lia.
    cbn [Zdigits2].
    rewrite (digits_unique pm1 53) by (change (53 - 1) with 52; lia).
    rewrite fexp_normal by (unfold e', emin, prec, emax in *; lia).
    replace (53 + e' - prec - e') with 0 by (unfold prec; lia).
    cbn [shr shr_record_of_loc shr_m].
    assert (Hle : (e' <=? emax - prec) = true)
      by (apply Z.leb_le; unfold e', emax, prec in *; lia).
    rewrite Hle.
    eexists _, _, m', e', l'. split; [reflexivity|].
    split; [lia|]. split; [exact Hin'|].
    fold m1. now rewrite Em1.
Qed.

(** Two roundings of ordered numbers are ordered. *)
Lemma round_nearest_even_mono m1 e1 l1 x m2 e2 l2 y :
  2 ^ 52 <= m1 < 2 ^ 53 -> 2 ^ 52 <= m2 < 2 ^ 53 ->
  located m1 e1 l1 x -> located m2 e2 l2 y ->
  (x <= y)%R ->
  (F2R (round_nearest_even m1 l1) e1 <= F2R (round_nearest_even m2 l2) e2)%R.
Proof.
  intros Hm1 Hm2 Hx Hy Hxy.
  pose proof (inbetween_bounds _ _ _ _ (located_inbetween _ _ _ _ Hx)) as Hxb.
  pose proof (inbetween_bounds _ _ _ _ (located_inbetween _ _ _ _ Hy)) as Hyb.
  assert (Hr1 : m1 <= round_nearest_even m1 l1 <= m1 + 1)
    by (unfold round_nearest_even; destruct l1 as [|[]];
        try destruct (Z.even m1); lia).
  assert (Hr2 : m2 <= round_nearest_even m2 l2 <= m2 + 1)
    by (unfold round_nearest_even; destruct l2 as [|[]];
        try destruct (Z.even m2); lia).
  destruct (Z.lt_trichotomy e1 e2) as [Hlt | [Heq | Hgt]].
  - apply Rle_trans with (F2R (2 ^ 53) e1); [apply F2R_le; lia|].
    apply Rle_trans with (F2R (2 ^ 52) e2); [|apply F2R_le; lia].
    rewrite !F2R_pow2 by lia. apply bpow_le. lia.
  - subst e2.
    assert (Hm : m1 <= m2).
    { assert (m1 < m2 + 1); [|lia]. apply (F2R_lt_inv _ _ e1). lra. }
    destruct (Z.eq_dec m1 m2) as [-> | Hne].
    + apply F2R_le. pose proof (bpow_pos e1) as Hb.
      unfold round_nearest_even.
      destruct l1 as [|[]], l2 as [|[]]; simpl in Hx, Hy;
        try destruct (Z.even m2); try lia; exfalso; lra.
    + apply Rle_trans with (F2R (m1 + 1) e1); apply F2R_le; lia.
  - exfalso.
    assert (F2R (m2 + 1) e2 <= F2R m1 e1)%R; [|lra].
    apply Rle_trans with (F2R (2 ^ 53) e2); [apply F2R_le; lia|].
    apply Rle_trans with (F2R (2 ^ 52) e1); [|apply F2R_le; lia].
    rewrite !F2R_pow2 by lia. apply bpow_le. lia.
Qed.

Lemma nearest_mono x f y g :
  nearest x f -> nearest y g -> (x <= y)%R -> (B2R f <= B2R g)%R.
Proof.
  intros (m1 & e1 & m1' & e1' & l1 & -> & Hm1 & Hl1 & Hv1)
         (m2 & e2 & m2' & e2' & l2 & -> & Hm2 & Hl2 & Hv2) Hxy.
  cbn [B2R cond_Zopp]. rewrite Hv1, Hv2.
  now apply (round_nearest_even_mono m1' e1' l1 x m2' e2' l2 y).
Qed.

Lemma binary_round_nearest mx ex :
  (bpow (-1022) <= F2R (Z.pos mx) ex < bpow 1000)%R ->
  nearest (F2R (Z.pos mx) ex) (binary_round prec emax false mx ex).
Proof.
  intros [Hlo Hhi].
  apply digits_of_value_lo in Hlo. apply digits_of_value_hi in Hhi.
  unfold binary_round.
  destruct (shl_align mx ex (fexp prec emax (Z.pos (digits2_pos mx) + ex)))
    as [mz ez] eqn:E.
  destruct (shl_align_value _ _ _ _ _ E) as [Hez Hv].
  assert (Hd : Z.pos (digits2_pos mz) + ez = Z.pos (digits2_pos mx) + ex).
  { pose proof (F2R_digits_bounds mz ez) as Hb. rewrite Hv in Hb.
    pose proof (F2R_digits_bounds mx ex) as Hb'.
    assert (Z.pos (digits2_pos mz) - 1 + ez < Z.pos (digits2_pos mx) + ex)
      by (apply bpow_lt_inv; lra).
    assert (Z.pos (digits2_pos mx) - 1 + ex < Z.pos (digits2_pos mz) + ez)
      by (apply bpow_lt_inv; lra).
    lia. }
  destruct (binary_round_aux_nearest false (Z.pos mz) ez loc_Exact
              (F2R (Z.pos mx) ex)) as (m & e & m' & e' & l' & H).
  - lia.
  - simpl. now rewrite Hv.
  - cbn [Zdigits2]. rewrite Hd. lia.
  - cbn [Zdigits2]. rewrite Hd. unfold emin, emax, prec. lia.
  - exists m, e, m', e', l'. exact H.
Qed.

Lemma of_int_nearest p :
  (IZR (Z.pos p) < bpow 1000)%R -> nearest (IZR (Z.pos p)) (of_int (Z.pos p)).
Proof.
  intros Hp. unfold of_int, binary_normalize.
  rewrite <- (F2R_0 (Z.pos p)) in *.
  apply binary_round_nearest. split; [|exact Hp].
  apply Rle_trans with (bpow 0); [apply bpow_le; lia|].
  rewrite F2R_0, bpow_0. apply IZR_le. lia.
Qed.

Lemma add_pos_nearest mx ex my ey :
  (bpow (-1022) <= F2R (Z.pos mx) ex + F2R (Z.pos my) ey < bpow 1000)%R ->
  nearest (F2R (Z.pos mx) ex + F2R (Z.pos my) ey)
    (add (S754_finite false mx ex) (S754_finite false my ey)).
Proof.
  intros Hx. unfold add, SFadd.
  destruct (shl_align mx ex (Z.min ex ey)) as [mx' ex'] eqn:Ex.
  destruct (shl_align my ey (Z.min ex ey)) as [my' ey'] eqn:Ey.
  destruct (shl_align_value _ _ _ _ _ Ex) as [Hex' Hvx].
  destruct (shl_align_value _ _ _ _ _ Ey) as [Hey' Hvy].
  replace (Z.min ex (Z.min ex ey)) with (Z.min ex ey) in Hex' by lia.
  replace (Z.min ey (Z.min ex ey)) with (Z.min ex ey) in Hey' by lia.
  rewrite Hex' in Hvx. rewrite Hey' in Hvy.
  cbn [fst cond_Zopp Z.add binary_normalize].
  rewrite <- Hvx, <- Hvy, <- F2R_add in *.
  change (Z.pos mx' + Z.pos my') with (Z.pos (mx' + my')) in *.
  now apply binary_round_nearest.
Qed.

(** The location that the division computes from the remainder. *)
Lemma new_location_located q e r my X :
  0 < my -> 0 <= r < my ->
  X = ((IZR q + IZR r / IZR my) * bpow e)%R ->
  located q e (new_location my r) X.
Proof.
  intros Hmy Hr ->.
  assert (Hmyr : (0 < IZR my)%R) by (apply IZR_lt; lia).
  pose proof (bpow_pos e) as Hb.
  assert (Hmid : F2R (2 * q + 1) (e - 1) = ((IZR q + / 2) * bpow e)%R).
  { unfold F2R. replace e with (e - 1 + 1) at 2 by lia.
    rewrite bpow_succ, plus_IZR, mult_IZR. field. }
  unfold new_location.
  destruct (Z.eq_dec r 0) as [-> | Hr0].
  - destruct (Z.even my); unfold new_location_even, new_location_odd; simpl;
      unfold F2R, Rdiv; rewrite Rmult_0_l; ring.
  - assert (Hfrac : (0 < IZR r / IZR my < 1)%R).
    { assert (0 < IZR r < IZR my)%R by (split; apply IZR_lt; lia).
      split.
      - apply Rdiv_lt_0_compat; lra.
      - apply Rmult_lt_reg_r with (IZR my); [lra|].
        unfold Rdiv. rewrite Rmult_assoc, Rinv_l by lra. lra. }
    assert (Hhalf : forall c, (2 * r ?= my) = c ->
               match c with
               | Lt => (IZR r / IZR my < / 2)%R
               | Eq => (IZR r / IZR my = / 2)%R
               | Gt => (/ 2 < IZR r / IZR my)%R
               end).
    { intros c Hc. destruct c.
      - apply Z.compare_eq in Hc. apply (f_equal IZR) in Hc.
        rewrite mult_IZR in Hc. field_simplify_eq; lra.
      - rewrite Z.compare_lt_iff in Hc. apply IZR_lt in Hc.
        rewrite mult_IZR in Hc.
        apply Rmult_lt_reg_r with (IZR my); [lra|].
        unfold Rdiv. rewrite Rmult_assoc, Rinv_l by lra. lra.
      - rewrite Z.compare_gt_iff in Hc. apply IZR_lt in Hc.
        rewrite mult_IZR in Hc.
        apply Rmult_lt_reg_r with (IZR my); [lra|].
        unfold Rdiv. rewrite Rmult_assoc, Rinv_l by lra. lra. }
    assert (Hbounds : (F2R q e < (IZR q + IZR r / IZR my) * bpow e
                       < F2R (q + 1) e)%R).
    { unfold F2R. rewrite plus_IZR. nra. }
    destruct (Z.even my) eqn:Eev;
      unfold new_location_even, new_location_odd;
      rewrite (proj2 (Z.eqb_neq r 0) Hr0).
    + (* an even divisor: the remainder may be exactly one half *)
      unfold located. split; [exact Hbounds|]. rewrite Hmid.
      specialize (Hhalf _ eq_refl).
      destruct (2 * r ?= my); nra.
    + (* an odd divisor *)
      assert (Hodd : 2 * r <> my).
      { intros E. rewrite <- E, Z.even_mul in Eev. discriminate. }
      unfold located. split; [exact Hbounds|]. rewrite Hmid.
      destruct (2 * r + 1 ?= my) eqn:Ec.
      * apply Z.compare_eq in Ec.
        assert (Hc : (2 * r ?= my) = Lt) by (apply Z.compare_lt_iff; lia).
        specialize (Hhalf _ Hc). cbn in Hhalf. nra.
      * rewrite Z.compare_lt_iff in Ec.
        assert (Hc : (2 * r ?= my) = Lt) by (apply Z.compare_lt_iff; lia).
        specialize (Hhalf _ Hc). cbn in Hhalf. nra.
      * rewrite Z.compare_gt_iff in Ec.
        assert (Hc : (2 * r ?= my) = Gt) by (apply Z.compare_gt_iff; lia).
        specialize (Hhalf _ Hc). cbn in Hhalf. nra.
Qed.

Lemma div_pos_nearest mx ex my ey :
  -1021 <= Z.pos (digits2_pos mx) + ex - (Z.pos (digits2_pos my) + ey) <= 999 ->
  nearest (F2R (Z.pos mx) ex / F2R (Z.pos my) ey)
    (div (S754_finite false mx ex) (S754_finite false my ey)).
Proof.
  intros HD. unfold div, SFdiv, SFdiv_core_binary. cbn [Zdigits2 xorb].
  set (d1 := Z.pos (digits2_pos mx)) in *.
  set (d2 := Z.pos (digits2_pos my)) in *.
  rewrite fexp_normal by (unfold emin, emax, prec; lia).
  set (D := d1 + ex - (d2 + ey)) in *.
  set (e' := Z.min (D - prec) (ex - ey)).
  set (s := ex - ey - e').
  assert (Hs : 0 <= s) by (unfold s, e'; lia).
  set (m' := match s with
             | 0 => Z.pos mx
             | Z.pos _ => Z.shiftl (Z.pos mx) s
             | Z.neg _ => 0
             end).
  assert (Hm' : m' = Z.pos mx * 2 ^ s).
  { unfold m'. destruct s as [|ps|ps] eqn:Es; [simpl; lia | | lia].
    now rewrite Z.shiftl_mul_pow2 by lia. }
  clearbody m'.
  pose proof (Z_div_mod m' (Z.pos my) eq_refl) as Hdm.
  destruct (Z.div_eucl m' (Z.pos my)) as [q r]. destruct Hdm as [Hqr Hr].
  set (X := (F2R (Z.pos mx) ex / F2R (Z.pos my) ey)%R).
  pose proof (bpow_pos ex) as Hbex. pose proof (bpow_pos ey) as Hbey.
  pose proof (bpow_pos e') as Hbe'.
  assert (Hmy : (0 < IZR (Z.pos my))%R) by (apply IZR_lt; lia).
  assert (HX : X = ((IZR q + IZR r / IZR (Z.pos my)) * bpow e')%R).
  { unfold X, F2R.
    replace ex with (s + (e' + ey)) by (unfold s; lia).
    rewrite !bpow_add, (bpow_IZR s) by lia.
    assert (Hi : (IZR (Z.pos mx) * IZR (2 ^ s)
                  = IZR (Z.pos my) * IZR q + IZR r)%R).
    { rewrite <- !mult_IZR, <- plus_IZR. f_equal. lia. }
    replace (IZR q + IZR r / IZR (Z.pos my))%R
      with (IZR (Z.pos mx) * IZR (2 ^ s) / IZR (Z.pos my))%R
      by (rewrite Hi; field; lra).
    field. split; lra. }
  assert (Hin : located q e' (new_location (Z.pos my) r) X).
  { apply new_location_located; [lia | exact Hr | exact HX]. }
  pose proof (inbetween_bounds _ _ _ _ (located_inbetween _ _ _ _ Hin))
    as HXb.
  pose proof (F2R_digits_bounds mx ex) as Hbx. fold d1 in Hbx.
  pose proof (F2R_digits_bounds my ey) as Hby. fold d2 in Hby.
  assert (HXr : (bpow (D - 1) < X < bpow (D + 1))%R).
  { assert (Hy0 : (0 < F2R (Z.pos my) ey)%R) by (unfold F2R; nra).
    assert (HXy : (X * F2R (Z.pos my) ey = F2R (Z.pos mx) ex)%R).
    { unfold X. field. lra. }
    assert (E1 : bpow (d1 - 1 + ex) = (bpow (D - 1) * bpow (d2 + ey))%R).
    { rewrite <- bpow_add. f_equal. unfold D. lia. }
    assert (E2 : bpow (d1 + ex) = (bpow (D + 1) * bpow (d2 - 1 + ey))%R).
    { rewrite <- bpow_add. f_equal. unfold D. lia. }
    pose proof (bpow_pos (D - 1)). pose proof (bpow_pos (D + 1)).
    pose proof (bpow_pos (d2 - 1 + ey)).
    split.
    - apply Rmult_lt_reg_r with (F2R (Z.pos my) ey); [exact Hy0|].
      rewrite HXy. apply Rlt_le_trans with (bpow (D - 1) * bpow (d2 + ey))%R.
      + apply Rmult_lt_compat_l; lra.
      + lra.
    - apply Rmult_lt_reg_r with (F2R (Z.pos my) ey); [exact Hy0|].
      rewrite HXy.
      apply Rlt_le_trans with (bpow (D + 1) * bpow (d2 - 1 + ey))%R.
      + lra.
      + apply Rmult_le_compat_l; lra. }
  assert (He' : e' <= D - prec) by (unfold e'; lia).
  assert (Hqlo : 2 ^ (D - 1 - e') <= q).
  { assert (2 ^ (D - 1 - e') < q + 1); [|lia].
    apply (F2R_lt_inv _ _ e'). rewrite F2R_pow2 by (unfold prec in *; lia).
    replace (D - 1 - e' + e') with (D - 1) by lia. lra. }
  assert (Hqhi : q < 2 ^ (D + 1 - e')).
  { apply (F2R_lt_inv _ _ e'). rewrite F2R_pow2 by (unfold prec in *; lia).
    replace (D + 1 - e' + e') with (D + 1) by lia. lra. }
  assert (H52 : 2 ^ 52 <= 2 ^ (D - 1 - e'))
    by (apply Z.pow_le_mono_r; unfold prec in *; lia).
  destruct q as [|pq|pq]; try lia.
  pose proof (digits_gt pq _ Hqlo) as Hdlo.
  pose proof (digits_le pq _ Hqhi) as Hdhi.
  destruct (binary_round_aux_nearest false (Z.pos pq) e'
              (new_location (Z.pos my) r) X) as (m & e & m1 & e1 & l1 & H).
  - lia.
  - exact Hin.
  - cbn [Zdigits2]. rewrite fexp_normal by (unfold emin, emax, prec; lia). lia.
  - cbn [Zdigits2]. unfold emin, emax, prec. lia.
  - exists m, e, m1, e1, l1. exact H.
Qed.

Lemma nearest_faithful x f : nearest x f -> faithful x (B2R f).
Proof.
  intros (m & e & m' & e' & l' & -> & Hm' & Hl & Hv).
  cbn [B2R cond_Zopp]. rewrite Hv.
  pose proof (inbetween_bounds _ _ _ _ (located_inbetween _ _ _ _ Hl)) as Hb.
  assert (Hr : m' <= round_nearest_even m' l' <= m' + 1
               /\ (l' = loc_Exact -> round_nearest_even m' l' = m')).
  { unfold round_nearest_even.
    destruct l' as [|[]]; try destruct (Z.even m'); split; (lia || auto);
      discriminate. }
  destruct Hr as [Hr Hre]. destruct Hm' as [Hm'lo Hm'hi].
  split; intros g Hg Hgx.
  - apply Rle_trans with (F2R m' e').
    + apply (grid_below m' e' g x); auto; lra.
    + apply F2R_le. lia.
  - destruct l' as [|c] eqn:El.
    + rewrite Hre by reflexivity. simpl in Hl. lra.
    + destruct Hl as [Hl _].
      apply Rle_trans with (F2R (m' + 1) e').
      * apply F2R_le. lia.
      * apply (grid_above m' e' g x); auto; lra.
Qed.

Lemma nearest_positive x f : nearest x f -> (0 < B2R f)%R.
Proof.
  intros (m & e & m' & e' & l' & -> & Hm' & Hl & Hv).
  cbn [B2R cond_Zopp]. unfold F2R.
  assert (0 < IZR (Z.pos m))%R by (apply IZR_lt; lia).
  pose proof (bpow_pos e). nra.
Qed.

(** The fraction of an hour is rounded to nearest. *)
Lemma frac_nearest pn :
  Z.pos pn < Hour ->
  nearest (IZR (Z.pos pn) / IZR Hour)
    (div (of_int (Z.pos pn)) (of_int (60 * 60 * 1000000000))).
Proof.
  intros Hn. change Hour with 3600000000000 in *.
  destruct (of_int_exact pn) as (m1 & e1 & H1 & Hv1); [lia|].
  rewrite H1.
  remember (of_int (60 * 60 * 1000000000)) as c eqn:Hc.
  vm_compute in Hc. subst c.
  assert (Hcv : F2R 7372800000000000 (-11) = IZR 3600000000000).
  { change 7372800000000000 with (3600000000000 * 2 ^ 11).
    rewrite F2R_shift by lia. apply F2R_0. }
  rewrite <- Hv1, <- Hcv. apply div_pos_nearest.
  change (Z.pos (digits2_pos 7372800000000000)) with 53.
  assert (0 < Z.pos (digits2_pos m1) + e1).
  { apply digits_of_value_lo. rewrite Hv1, bpow_0. apply IZR_le. lia. }
  assert (Z.pos (digits2_pos m1) + e1 <= 42).
  { apply digits_of_value_hi. rewrite Hv1, bpow_IZR by lia.
    apply IZR_lt. lia. }
  lia.
Qed.

(** [float64(nsec)/(60*60*1e9)] grows with [nsec]. *)
Lemma frac_mono n1 n2 :
  0 <= n1 <= n2 -> n2 < Hour ->
  (B2R (div (of_int n1) (of_int (60 * 60 * 1000000000)))
   <= B2R (div (of_int n2) (of_int (60 * 60 * 1000000000))))%R.
Proof.
  intros Hn Hn2.
  destruct n2 as [|p2|p2]; [| |lia].
  - replace n1 with 0 by lia. apply Rle_refl.
  - pose proof (nearest_positive _ _ (frac_nearest p2 Hn2)) as Hpos.
    destruct n1 as [|p1|p1]; [| |lia].
    + change (B2R (div (of_int 0) _)) with 0%R. lra.
    + apply (nearest_mono _ _ _ _ (frac_nearest p1 ltac:(lia))
               (frac_nearest p2 Hn2)).
      assert (HH : Hour = 3600000000000) by reflexivity. rewrite HH.
      assert (IZR (Z.pos p1) <= IZR (Z.pos p2))%R by (apply IZR_le; lia).
      lra.
Qed.

Lemma frac_bounds n :
  0 <= n < Hour ->
  (0 <= B2R (div (of_int n) (of_int (60 * 60 * 1000000000))) <= 1)%R.
Proof.
  intros Hn. destruct n as [|p|p]; [| |lia].
  - change (B2R (div (of_int 0) _)) with 0%R. lra.
  - pose proof (frac_nearest p ltac:(lia)) as Hnr.
    pose proof (nearest_positive _ _ Hnr).
    destruct (nearest_faithful _ _ Hnr) as [_ Hhi].
    split; [lra|]. apply Hhi; [apply (representable_int 1); lia|].
    assert (HH : Hour = 3600000000000) by reflexivity. rewrite HH in *.
    assert (0 < IZR (Z.pos p) <= 3600000000000)%R
      by (split; [apply IZR_lt | apply IZR_le]; lia).
    lra.
Qed.

(** The value of [d.Hours()], by cases on the whole hours and the rest. *)
Lemma Hours_value h n :
  0 <= h <= 2562047 -> 0 <= n < Hour -> 0 < h * Hour + n ->
  let frac := div (of_int n) (of_int (60 * 60 * 1000000000)) in
  (h = 0 -> Hours (h * Hour + n) = frac)
  /\ (0 < h -> n = 0 -> B2R (Hours (h * Hour + n)) = IZR h)
  /\ (0 < h -> 0 < n -> nearest (IZR h + B2R frac) (Hours (h * Hour + n))).
Proof.
  intros Hh Hn Hd frac.
  assert (HH : Hour = 3600000000000) by reflexivity.
  assert (Hq : Z.quot (h * Hour + n) Hour = h).
  { symmetry. apply (Z.quot_unique _ _ h n); rewrite HH in *; lia. }
  assert (Hr : Z.rem (h * Hour + n) Hour = n).
  { symmetry. apply (Z.rem_unique _ _ h n); rewrite HH in *; lia. }
  unfold Hours. rewrite Hq, Hr. fold frac.
  split; [|split].
  - intros ->. destruct n as [|p|p]; [lia| |lia].
    destruct (frac_nearest p ltac:(lia)) as (m & e & _ & _ & _ & Hf & _).
    unfold frac. rewrite Hf. reflexivity.
  - intros Hpos ->. destruct h as [|p|p]; [lia| |lia].
    destruct (of_int_exact p) as (m & e & Hm & Hv); [lia|].
    unfold frac. rewrite Hm. cbn. exact Hv.
  - intros Hhpos Hnpos. destruct h as [|ph|ph]; [lia| |lia].
    destruct n as [|pn|pn]; [lia| |lia].
    destruct (of_int_exact ph) as (m1 & e1 & Hm1 & Hv1); [lia|].
    pose proof (frac_bounds (Z.pos pn) ltac:(lia)) as Hfb.
    pose proof (nearest_positive _ _ (frac_nearest pn ltac:(lia))) as Hfp.
    destruct (frac_nearest pn ltac:(lia)) as (m2 & e2 & _ & _ & _ & Hf & _).
    fold frac in Hfb, Hfp, Hf. rewrite Hf in *. rewrite Hm1.
    cbn [B2R cond_Zopp] in *. rewrite <- Hv1.
    apply add_pos_nearest. rewrite Hv1.
    assert (1 <= IZR (Z.pos ph) <= 2562047)%R
      by (split; apply IZR_le; lia).
    split.
    + apply Rle_trans with (bpow 0); [apply bpow_le; lia|].
      rewrite bpow_0. lra.
    + apply Rlt_le_trans with (bpow 22); [|apply bpow_le; lia].
      rewrite bpow_IZR by lia. change (2 ^ 22) with 4194304. lra.
Qed.

Lemma Hours_between h n :
  0 <= h <= 2562047 -> 0 <= n < Hour -> 0 < h * Hour + n ->
  (IZR h <= B2R (Hours (h * Hour + n)%Z) <= IZR h + 1)%R.
Proof.
  intros Hh Hn Hd.
  destruct (Hours_value h n Hh Hn Hd) as (H0 & Hw & Hs).
  pose proof (frac_bounds n Hn) as Hfb.
  destruct (Z.eq_dec h 0) as [-> | Hh0].
  - rewrite (H0 eq_refl). simpl IZR. lra.
  - destruct (Z.eq_dec n 0) as [-> | Hn0].
    + rewrite (Hw ltac:(lia) eq_refl). lra.
    + destruct (nearest_faithful _ _ (Hs ltac:(lia) ltac:(lia))) as [Hlo Hhi].
      split.
      * apply Hlo; [apply representable_int; lia | lra].
      * rewrite <- plus_IZR.
        apply Hhi; [apply representable_int; lia | rewrite plus_IZR; lra].
Qed.

(** [d.Hours()] grows with [d]. *)
Lemma Hours_mono_pos d1 d2 :
  0 < d1 -> d1 <= d2 -> d2 <= 2 ^ 63 ->
  (B2R (Hours d1) <= B2R (Hours d2))%R.
Proof.
  intros Hd1 Hle Hd2.
  assert (HH : Hour = 3600000000000) by reflexivity.
  pose proof (Z.quot_rem' d1 Hour) as Hqr1.
  pose proof (Z.quot_rem' d2 Hour) as Hqr2.
  pose proof (Z.rem_bound_pos d1 Hour ltac:(lia) ltac:(rewrite HH; lia)) as Hn1.
  pose proof (Z.rem_bound_pos d2 Hour ltac:(lia) ltac:(rewrite HH; lia)) as Hn2.
  pose proof (Z.quot_pos d1 Hour ltac:(lia) ltac:(rewrite HH; lia)) as Hh1.
  pose proof (Z.quot_le_mono d1 d2 Hour ltac:(rewrite HH; lia) Hle) as Hh.
  set (h1 := Z.quot d1 Hour) in *. set (n1 := Z.rem d1 Hour) in *.
  set (h2 := Z.quot d2 Hour) in *. set (n2 := Z.rem d2 Hour) in *.
  assert (Hh2max : h2 <= 2562047) by (rewrite HH in *; lia).
  assert (E1 : d1 = h1 * Hour + n1) by lia.
  assert (E2 : d2 = h2 * Hour + n2) by lia.
  rewrite E1, E2.
  pose proof (Hours_between h1 n1 ltac:(lia) Hn1 ltac:(lia)) as B1.
  pose proof (Hours_between h2 n2 ltac:(lia) Hn2 ltac:(lia)) as B2.
  destruct (Z_lt_ge_dec h1 h2) as [Hlt | Hge].
  - assert (IZR h1 + 1 <= IZR h2)%R
      by (rewrite <- plus_IZR; apply IZR_le; lia).
    lra.
  - assert (Hheq : h2 = h1) by lia. rewrite Hheq in *.
    assert (Hn : n1 <= n2) by (rewrite HH in *; nia).
    destruct (Hours_value h1 n1 ltac:(lia) Hn1 ltac:(lia)) as (Z1 & W1 & S1).
    destruct (Hours_value h1 n2 ltac:(lia) Hn2 ltac:(lia)) as (Z2 & W2 & S2).
    destruct (Z.eq_dec h1 0) as [Hz | Hnz].
    + rewrite (Z1 Hz), (Z2 Hz). apply frac_mono; lia.
    + destruct (Z.eq_dec n1 0) as [Hn0 | Hn0].
      * rewrite (W1 ltac:(lia) Hn0). lra.
      * apply (nearest_mono _ _ _ _ (S1 ltac:(lia) ltac:(lia))
                 (S2 ltac:(lia) ltac:(lia))).
        pose proof (frac_mono n1 n2 ltac:(lia) ltac:(lia)). lra.
Qed.

(** [d.Hours() / 24] is rounded to nearest. *)
Lemma quotient_nearest d :
  0 < d <= 2 ^ 63 ->
  nearest (B2R (Hours d) / 24) (div (Hours d) (of_int 24)).
Proof.
  intros Hd.
  destruct (Hours_core d Hd) as (m & e & v1 & Hp & _ & _ & _ & _ & Hv).
  rewrite Hp. cbn [B2R cond_Zopp].
  remember (of_int 24) as c eqn:Hc. vm_compute in Hc. subst c.
  assert (Hcv : F2R 6755399441055744 (-48) = 24%R).
  { change 6755399441055744 with (24 * 2 ^ 48).
    rewrite F2R_shift by lia. apply F2R_0. }
  rewrite <- Hcv. apply div_pos_nearest.
  change (Z.pos (digits2_pos 6755399441055744)) with 53.
  assert (-42 < Z.pos (digits2_pos m) + e)
    by (apply digits_of_value_lo; lra).
  assert (Z.pos (digits2_pos m) + e <= 22).
  { apply digits_of_value_hi. rewrite bpow_IZR by lia.
    change (2 ^ 22) with 4194304. lra. }
  lia.
Qed.

Lemma wholeDays_mono_pos d1 d2 :
  0 < d1 -> d1 <= d2 -> d2 <= 2 ^ 63 -> wholeDays d1 <= wholeDays d2.
Proof.
  intros Hd1 Hle Hd2.
  pose proof (Hours_mono_pos d1 d2 Hd1 Hle Hd2) as Hh.
  pose proof (nearest_mono _ _ _ _ (quotient_nearest d1 ltac:(lia))
                (quotient_nearest d2 ltac:(lia)) ltac:(lra)) as Hq.
  unfold wholeDays.
  destruct (quotient_core d1 ltac:(lia))
    as (_ & _ & m1 & e1 & _ & _ & _ & _ & Hb1 & E1 & _).
  destruct (quotient_core d2 ltac:(lia))
    as (_ & _ & m2 & e2 & _ & _ & _ & _ & Hb2 & E2 & _).
  rewrite E1, E2 in *. cbn [B2R cond_Zopp] in Hq.
  assert (Hlt : forall m e, (F2R (Z.pos m) e <= 131072)%R ->
                            (F2R (Z.pos m) e < bpow 63)%R).
  { intros m e H. rewrite bpow_IZR by lia.
    change (2 ^ 63) with 9223372036854775808. lra. }
  destruct (to_int_finite false m1 e1 (Hlt _ _ Hb1)) as [-> _].
  destruct (to_int_finite false m2 e2 (Hlt _ _ Hb2)) as [-> _].
  cbn [cond_Zopp].
  destruct (magnitude_floor m1 e1) as [_ F1].
  destruct (magnitude_floor m2 e2) as [_ F2].
  assert (magnitude m1 e1 < magnitude m2 e2 + 1); [|lia].
  apply lt_IZR. rewrite plus_IZR. lra.
Qed.

(** The day count grows with the duration, over all of [int64]. *)
Lemma wholeDays_mono d1 d2 :
  minInt64 <= d1 -> d1 <= d2 -> d2 <= maxInt64 ->
  wholeDays d1 <= wholeDays d2.
Proof.
  unfold minInt64, maxInt64. intros H1 Hle H2.
  assert (Hsign : forall d, - 2 ^ 63 <= d <= 2 ^ 63 - 1 ->
            (0 <= d -> 0 <= wholeDays d) /\ (d <= 0 -> wholeDays d <= 0)).
  { intros d Hd. destruct (wholeDays_bound d Hd) as [_ _].
    destruct (wholeDays_spec d Hd) as (Hp & Hn & _). split; intros Hs.
    - pose proof (Z.quot_pos d Day Hs ltac:(rewrite Day_value; lia)).
      specialize (Hp Hs). lia.
    - pose proof (quot_Day_nonpos d Hs). specialize (Hn Hs). lia. }
  destruct (Z_lt_ge_dec 0 d1) as [Hp1 | Hn1].
  - apply wholeDays_mono_pos; lia.
  - destruct (Z_lt_ge_dec d2 0) as [Hn2 | Hp2].
    + destruct (wholeDays_pos (- d1)) as (_ & _ & _ & O1); [lia|].
      destruct (wholeDays_pos (- d2)) as (_ & _ & _ & O2); [lia|].
      rewrite Z.opp_involutive in O1, O2. rewrite O1, O2.
      pose proof (wholeDays_mono_pos (- d2) (- d1) ltac:(lia) ltac:(lia)
                    ltac:(lia)).
      lia.
    + destruct (Hsign d1 ltac:(lia)) as [_ S1].
      destruct (Hsign d2 ltac:(lia)) as [S2 _].
      specialize (S1 ltac:(lia)). specialize (S2 ltac:(lia)). lia.
Qed.

Lemma Sub_mono t1 t2 u1 u2 :
  t1 <= t2 -> u2 <= u1 -> Sub t1 u1 <= Sub t2 u2.
Proof.
  intros Ht Hu. rewrite !Sub_saturates.
  unfold minDuration, maxDuration, minInt64, maxInt64. lia.
Qed.

(** A later expiration or an earlier observation never lowers the count. *)
Lemma daysUntil_mono notAfter1 notAfter2 now1 now2 :
  notAfter1 <= notAfter2 -> now2 <= now1 ->
  daysUntil notAfter1 now1 <= daysUntil notAfter2 now2.
Proof.
  intros Ht Hu. unfold daysUntil.
  pose proof (Sub_range notAfter1 now1). pose proof (Sub_range notAfter2 now2).
  apply wholeDays_mono; try lia. now apply Sub_mono.
Qed.

(** ** Consequences of the monotone count *)

(** Within one fetched chain the day counts follow the expiration dates: a
    certificate that expires later never has a smaller [ExpiresInDays]. *)
Theorem ExpiresInDays_follows_expiration w address chain w' c1 c2 :
  FetchChain w address = ((chain, None), w') ->
  In c1 chain -> In c2 chain ->
  ExpirationDate c1 <= ExpirationDate c2 ->
  ExpiresInDays c1 <= ExpiresInDays c2.
Proof.
  intros H H1 H2 Hle.
  destruct (in_fetched_chain _ _ _ _ _ H H1) as (cert1 & ->).
  destruct (in_fetched_chain _ _ _ _ _ H H2) as (cert2 & ->).
  cbn [ExpirationDate ExpiresInDays certStatus] in *.
  apply daysUntil_mono; lia.
Qed.

Lemma ExpiresInDays_follows_expiration_witness :
  FetchChain sampleWorld "example.com:443"
  = ((sampleChain, None), sampleWorldAfter)
  /\ In (certStatus sampleNow staleCert) sampleChain
  /\ In (certStatus sampleNow leafCert) sampleChain
  /\ ExpirationDate (certStatus sampleNow staleCert)
     <= ExpirationDate (certStatus sampleNow leafCert)
  /\ ExpiresInDays (certStatus sampleNow staleCert)
     <= ExpiresInDays (certStatus sampleNow leafCert).
Proof.
  assert (H : FetchChain sampleWorld "example.com:443"
              = ((sampleChain, None), sampleWorldAfter)) by reflexivity.
  assert (H1 : In (certStatus sampleNow staleCert) sampleChain)
    by (right; left; reflexivity).
  assert (H2 : In (certStatus sampleNow leafCert) sampleChain)
    by (left; reflexivity).
  assert (Hle : ExpirationDate (certStatus sampleNow staleCert)
                <= ExpirationDate (certStatus sampleNow leafCert))
    by (vm_compute; discriminate).
  split; [exact H|]. split; [exact H1|]. split; [exact H2|].
  split; [exact Hle|].
  exact (ExpiresInDays_follows_expiration _ _ _ _ _ _ H H1 H2 Hle).
Defined.

(** When the peer presents the same certificates and the wall clock does
    not step back between two calls, the answer true of
    [ExpiresWithinDays] is kept by the next call with the same threshold:
    the day counts only go down as time passes. *)
Theorem ExpiresWithinDays_persists w address certs days :
  net w address = Connected certs ->
  wallclock w (ticks w) <= wallclock w (S (ticks w)) ->
  fst (fst (ExpiresWithinDays w address days)) = true ->
  fst (ExpiresWithinDays (snd (ExpiresWithinDays w address days)) address days)
  = (true, None).
Proof.
  intros H Hclock.
  rewrite (ExpiresWithinDays_ok _ _ days _ _ (FetchChain_connected _ _ _ H)).
  cbn [fst snd]. intros He.
  set (w1 := {| net := net w; wallclock := wallclock w;
                ticks := S (ticks w) |}).
  assert (H1 : net w1 address = Connected certs) by exact H.
  rewrite (ExpiresWithinDays_ok _ _ days _ _ (FetchChain_connected _ _ _ H1)).
  cbn [fst]. f_equal. cbn [w1 wallclock ticks].
  apply anyExpiresWithin_spec in He. destruct He as (c & Hin & Hc).
  apply in_map_iff in Hin. destruct Hin as (cert & <- & Hin).
  apply anyExpiresWithin_spec.
  exists (certStatus (wallclock w (S (ticks w))) cert).
  split; [now apply in_map|].
  cbn [ExpiresInDays certStatus] in *.
  pose proof (daysUntil_mono (NotAfter cert) (NotAfter cert)
                (wallclock w (S (ticks w))) (wallclock w (ticks w))
                ltac:(lia) Hclock).
  lia.
Qed.

Lemma ExpiresWithinDays_persists_witness :
  net sampleWorld "example.com:443" = Connected [leafCert; staleCert]
  /\ wallclock sampleWorld (ticks sampleWorld)
     <= wallclock sampleWorld (S (ticks sampleWorld))
  /\ fst (fst (ExpiresWithinDays sampleWorld "example.com:443" 30)) = true
  /\ fst (ExpiresWithinDays
            (snd (ExpiresWithinDays sampleWorld "example.com:443" 30))
            "example.com:443" 30) = (true, None).
Proof.
  assert (H : net sampleWorld "example.com:443"
              = Connected [leafCert; staleCert]) by reflexivity.
  assert (Hc : wallclock sampleWorld (ticks sampleWorld)
               <= wallclock sampleWorld (S (ticks sampleWorld)))
    by (vm_compute; discriminate).
  assert (He : fst (fst (ExpiresWithinDays sampleWorld "example.com:443" 30))
               = true) by reflexivity.
  split; [exact H|]. split; [exact Hc|]. split; [exact He|].
  exact (ExpiresWithinDays_persists _ _ _ 30 H Hc He).
Defined.

(** [ExpiresWithinDays] against [ExpiresBeforeDate]: for a threshold from 1
    to 106751 days, a chain that expires within [days] days expires before
    the date [days] times 24 hours after the observation instant; and a
    chain that expires before that date less 1676ns expires within [days]
    days. *)
Theorem ExpiresWithinDays_vs_ExpiresBeforeDate w address certs days :
  net w address = Connected certs ->
  1 <= days <= 106751 ->
  let now := wallclock w (ticks w) in
  (fst (fst (ExpiresWithinDays w address days)) = true ->
   fst (ExpiresBeforeDate w address (now + days * Day)) = (true, None))
  /\ (fst (fst (ExpiresBeforeDate w address (now + days * Day - 1676))) = true ->
      fst (ExpiresWithinDays w address days) = (true, None)).
Proof.
  intros H Hdays now.
  rewrite (ExpiresWithinDays_ok _ _ days _ _ (FetchChain_connected _ _ _ H)).
  rewrite !(ExpiresBeforeDate_ok _ _ _ _ _ (FetchChain_connected _ _ _ H)).
  cbn [fst]. fold now. split.
  - intros Ht. f_equal. apply anyExpiresWithin_spec in Ht.
    destruct Ht as (c & Hin & Hc). apply in_map_iff in Hin.
    destruct Hin as (cert & <- & Hin).
    apply anyExpiresBefore_spec.
    exists (certStatus now cert). split; [now apply in_map|].
    cbn [ExpirationDate ExpiresInDays certStatus] in *.
    pose proof (daysUntil_lt_sound (NotAfter cert) now days ltac:(lia) Hc).
    lia.
  - intros Ht. f_equal. apply anyExpiresBefore_spec in Ht.
    destruct Ht as (c & Hin & Hc). apply in_map_iff in Hin.
    destruct Hin as (cert & <- & Hin).
    apply anyExpiresWithin_spec.
    exists (certStatus now cert). split; [now apply in_map|].
    cbn [ExpirationDate ExpiresInDays certStatus] in *.
    apply daysUntil_lt_complete; lia.
Qed.

Lemma ExpiresWithinDays_vs_ExpiresBeforeDate_witness :
  net sampleWorld "leaf.example.com:443" = Connected [leafCert]
  /\ 1 <= 16 <= 106751
  /\ fst (fst (ExpiresWithinDays sampleWorld "leaf.example.com:443" 16)) = true
  /\ fst (ExpiresBeforeDate sampleWorld "leaf.example.com:443"
            (sampleNow + 16 * Day)) = (true, None).
Proof.
  assert (H : net sampleWorld "leaf.example.com:443" = Connected [leafCert])
    by reflexivity.
  assert (Hd : 1 <= 16 <= 106751) by (split; discriminate).
  assert (Ht : fst (fst (ExpiresWithinDays sampleWorld
                           "leaf.example.com:443" 16)) = true)
    by reflexivity.
  split; [exact H|]. split; [exact Hd|]. split; [exact Ht|].
  exact (proj1 (ExpiresWithinDays_vs_ExpiresBeforeDate _ _ _ 16 H Hd) Ht).
Defined.

(** ** Witnesses on the sample worlds *)

Lemma ExpiresWithinDays_nonpositive_means_expired_witness :
  -2 <= 0
  /\ fst (fst (ExpiresWithinDays lapsedWorld "example.com:443" (-2))) = true
  /\ fst (fst (Expired lapsedWorld "example.com:443")) = true.
Proof.
  assert (Hd : -2 <= 0) by (vm_compute; discriminate).
  assert (Ht : fst (fst (ExpiresWithinDays lapsedWorld "example.com:443" (-2)))
               = true) by reflexivity.
  split; [exact Hd|]. split; [exact Ht|].
  exact (ExpiresWithinDays_nonpositive_means_expired _ _ _ Hd Ht).
Defined.

Lemma ExpiresInDays_saturates_witness :
  maxDuration <= NotAfter distantCert - sampleNow
  /\ ExpiresInDays (certStatus sampleNow distantCert) = 106751.
Proof.
  assert (H : maxDuration <= NotAfter distantCert - sampleNow)
    by (vm_compute; discriminate).
  split; [exact H|].
  exact (proj1 (ExpiresInDays_saturates sampleNow distantCert) H).
Defined.

(** ** The day count, record by record *)

(** The day count of a record never grows when the observation instant
    moves later, and never shrinks when the expiration instant moves later:
    the float64 arithmetic of [int(d.Hours() / 24)] preserves the order of
    the durations. *)
Theorem ExpiresInDays_monotone now1 now2 cert1 cert2 :
  NotAfter cert1 <= NotAfter cert2 ->
  now2 <= now1 ->
  ExpiresInDays (certStatus now1 cert1) <= ExpiresInDays (certStatus now2 cert2).
Proof.
  intros Hc Hn. cbn [ExpiresInDays certStatus].
  now apply daysUntil_mono.
Qed.

Lemma ExpiresInDays_monotone_witness :
  NotAfter staleCert <= NotAfter leafCert
  /\ sampleNow <= sampleNow + 86400 * Second
  /\ ExpiresInDays (certStatus (sampleNow + 86400 * Second) staleCert)
     <= ExpiresInDays (certStatus sampleNow leafCert).
Proof.
  assert (Hc : NotAfter staleCert <= NotAfter leafCert) by (vm_compute; discriminate).
  assert (Hn : sampleNow <= sampleNow + 86400 * Second) by (vm_compute; discriminate).
  split; [exact Hc|]. split; [exact Hn|].
  exact (ExpiresInDays_monotone _ _ _ _ Hc Hn).
Defined.

(** The day count is exactly the time to expiration (saturated to int64
    nanoseconds) divided by 24 hours and truncated toward zero, unless that
    time is within 1676ns of a whole number of days: the end of an hour
    inside a day never changes the count. *)
Theorem ExpiresInDays_exact_within_day now cert :
  let d := Z.max minDuration (Z.min maxDuration (NotAfter cert - now)) in
  Z.abs (Z.rem d Day) <= Day - 1677 ->
  ExpiresInDays (certStatus now cert) = Z.quot d Day.
Proof.
  intros d Hrem. cbn [ExpiresInDays certStatus]. unfold daysUntil.
  rewrite Sub_saturates. fold d.
  apply wholeDays_exact_day; [apply Sub_clamped | exact Hrem].
Qed.

Lemma ExpiresInDays_exact_within_day_witness :
  Z.abs (Z.rem (Z.max minDuration
                  (Z.min maxDuration (NotAfter leafCert - (sampleNow + Hour + 1))))
           Day) <= Day - 1677
  /\ ExpiresInDays (certStatus (sampleNow + Hour + 1) leafCert)
     = Z.quot (Z.max minDuration
                 (Z.min maxDuration (NotAfter leafCert - (sampleNow + Hour + 1))))
         Day.
Proof.
  assert (H : Z.abs (Z.rem (Z.max minDuration
                  (Z.min maxDuration (NotAfter leafCert - (sampleNow + Hour + 1))))
           Day) <= Day - 1677) by (vm_compute; discriminate).
  split; [exact H|].
  exact (ExpiresInDays_exact_within_day (sampleNow + Hour + 1) leafCert H).
Defined.
